(** * git-iris release script (scripts/release.py): a shallow embedding

    The script bumps the version recorded in Cargo.toml, runs the cargo
    checks and commits, tags and pushes the result.  Its logic lives in
    three places, all modelled below:

    - four regular expressions: version extraction, version update,
      version validation, and the one that strips ANSI escapes;
    - the banner helpers [generate_gradient] and [center_text];
    - the linear control flow of [main], a sequence of shell-outs
      guarded by [sys.exit(1)].

    Text is modelled by [string]: a Python [str] restricted to the code
    points 0..255, one [ascii] per code point.  On that range the class
    [\d] of the [re] module is exactly '0'..'9' and [\s] is the set
    given by [is_space].

    The first part of the file holds the definitions, the second part
    the lemmas and theorems about them, the third part further
    properties of the code. *)

From Stdlib Require Import Bool Arith ZArith NArith Lia List.
From Stdlib Require Import Ascii String DecimalString.
From Stdlib Require Import SpecFloat.
Import ListNotations.
Local Open Scope string_scope.

(** ** Strings *)

Module Str.

(** [all p s]: every character of [s] satisfies [p]. *)
Fixpoint all (p : ascii -> bool) (s : string) : bool :=
  match s with
  | "" => true
  | String a s' => p a && all p s'
  end.

Fixpoint take_while (p : ascii -> bool) (s : string) : string :=
  match s with
  | "" => ""
  | String a s' => if p a then String a (take_while p s') else ""
  end.

Fixpoint drop_while (p : ascii -> bool) (s : string) : string :=
  match s with
  | "" => ""
  | String a s' => if p a then drop_while p s' else s
  end.

(** The character just before the position reached after reading [w],
    when [prev] was the character before [w] ([None] at offset 0). *)
Fixpoint last_of (prev : option ascii) (w : string) : option ascii :=
  match w with
  | "" => prev
  | String a w' => last_of (Some a) w'
  end.

(** [heads p s]: [s] is not empty and its first character is in [p]. *)
Definition heads (p : ascii -> bool) (s : string) : bool :=
  match s with
  | "" => false
  | String a _ => p a
  end.

Fixpoint repeat (a : ascii) (n : nat) : string :=
  match n with
  | O => ""
  | S n' => String a (repeat a n')
  end.

(** Concatenation of a list of strings ([''.join]). *)
Fixpoint cat (ps : list string) : string :=
  match ps with
  | [] => ""
  | w :: ps' => w ++ cat ps'
  end.

(** [' ' * n]: empty when [n <= 0]. *)
Definition spaces (n : Z) : string := repeat " " (Z.to_nat n).

(** [str(n)] for an integer. *)
Definition of_Z (n : Z) : string := NilZero.string_of_int (Z.to_int n).

End Str.

(** ** Character classes of the [re] module on 8-bit text *)

Definition code (a : ascii) : N := N_of_ascii a.

Definition between (lo hi : N) (a : ascii) : bool :=
  ((lo <=? code a) && (code a <=? hi))%N.

(** [\d] *)
Definition is_digit : ascii -> bool := between 48 57.

(** [\s], also the characters [str.strip] removes: TAB, LF, VT, FF, CR,
    the separators FS..US, SPACE, NEL and NBSP. *)
Definition is_space (a : ascii) : bool :=
  between 9 13 a || between 28 32 a || (code a =? 133)%N || (code a =? 160)%N.

Definition newline : ascii := "010"%char.
Definition dquote : ascii := "034"%char.
Definition esc : ascii := "027"%char.

Definition NL : string := String newline "".

(** ** A backtracking matcher for the fragment of [re] the script uses

    The script's patterns are sequences of literals, single character
    classes, greedy [*] and [+] over a class, capture groups and the
    anchors [^] and [$].  A match is reported as one piece of text per
    pattern node, in order, together with the unread rest. *)

Module Re.

Inductive node : Type :=
| Lit (c : ascii)
| Cls (p : ascii -> bool)
| Star (p : ascii -> bool)
| Plus (p : ascii -> bool)
| Open (g : nat)
| Close (g : nat)
| Bol
| Eol.

Definition regex := list node.

Definition result : Type := list string * string.
Definition cont : Type := option ascii -> string -> option result.

Definition emit (w : string) (r : option result) : option result :=
  match r with
  | Some (ps, rest) => Some (w :: ps, rest)
  | None => None
  end.

(** [^]: offset 0, and with MULTILINE also just after a newline. *)
Definition at_bol (ml : bool) (prev : option ascii) : bool :=
  match prev with
  | None => true
  | Some a => ml && Ascii.eqb a newline
  end.

(** [$]: the end of the text or just before a final newline; with
    MULTILINE before every newline. *)
Definition at_eol (ml : bool) (s : string) : bool :=
  match s with
  | "" => true
  | String a s' => Ascii.eqb a newline && (ml || String.eqb s' "")
  end.

Definition stop (k : cont) (prev : option ascii) (s : string) : option (string * result) :=
  match k prev s with
  | Some r => Some ("", r)
  | None => None
  end.

Definition grow (a : ascii) (r : option (string * result)) : option (string * result) :=
  match r with
  | Some (w, r') => Some (String a w, r')
  | None => None
  end.

(** Greedy repetition: take one more character when possible and give
    it back when the continuation [k] fails on what follows. *)
Fixpoint star (p : ascii -> bool) (k : cont) (prev : option ascii) (s : string)
  : option (string * result) :=
  match s with
  | String a s' =>
      if p a then
        match star p k (Some a) s' with
        | Some r => Some (String a (fst r), snd r)
        | None => stop k prev s
        end
      else stop k prev s
  | "" => stop k prev s
  end.

Definition emit_run (r : option (string * result)) : option result :=
  match r with
  | Some (w, (ps, rest)) => Some (w :: ps, rest)
  | None => None
  end.

Fixpoint m (ml : bool) (re : regex) : cont :=
  match re with
  | [] => fun _ s => Some ([], s)
  | n :: re' =>
      let k := m ml re' in
      match n with
      | Lit c => fun _ s =>
          match s with
          | String a s' =>
              if Ascii.eqb a c then emit (String a "") (k (Some a) s') else None
          | "" => None
          end
      | Cls p => fun _ s =>
          match s with
          | String a s' =>
              if p a then emit (String a "") (k (Some a) s') else None
          | "" => None
          end
      | Star p => fun prev s => emit_run (star p k prev s)
      | Plus p => fun _ s =>
          match s with
          | String a s' =>
              if p a then emit_run (grow a (star p k (Some a) s')) else None
          | "" => None
          end
      | Open _ | Close _ => fun prev s => emit "" (k prev s)
      | Bol => fun prev s => if at_bol ml prev then emit "" (k prev s) else None
      | Eol => fun prev s => if at_eol ml s then emit "" (k prev s) else None
      end
  end.

(** The text of group [g]: the pieces between [Open g] and [Close g]. *)
Fixpoint group_from (g : nat) (inside : bool) (re : regex) (ps : list string) : string :=
  match re, ps with
  | n :: re', w :: ps' =>
      match n with
      | Open h => group_from g (inside || Nat.eqb h g) re' ps'
      | Close h => if Nat.eqb h g then "" else group_from g inside re' ps'
      | _ => if inside then w ++ group_from g inside re' ps'
             else group_from g inside re' ps'
      end
  | _, _ => ""
  end.

Definition group (g : nat) (re : regex) (ps : list string) : string :=
  group_from g false re ps.

(** Group 0, the whole match. *)
Definition whole (ps : list string) : string := Str.cat ps.

(** [re.match]: a match at offset 0 only. *)
Definition re_match (ml : bool) (re : regex) (s : string) : option (list string) :=
  option_map fst (m ml re None s).

(** [re.search]: the match at the least offset that has one. *)
Fixpoint search_from (ml : bool) (re : regex) (pos : nat) (prev : option ascii)
    (s : string) : option (nat * list string) :=
  match m ml re prev s with
  | Some r => Some (pos, fst r)
  | None =>
      match s with
      | String a s' => search_from ml re (S pos) (Some a) s'
      | "" => None
      end
  end.

Definition re_search (ml : bool) (re : regex) (s : string) : option (nat * list string) :=
  search_from ml re 0 None s.

(** [re.sub]: scan left to right, replace every match by [repl] of its
    pieces and resume after it.  [skip] counts the characters of the
    current match still to be passed over.  After an empty match the
    next character is copied. *)
Fixpoint sub_from (ml : bool) (re : regex) (repl : list string -> string)
    (skip : nat) (prev : option ascii) (s : string) : string :=
  match skip with
  | S n =>
      match s with
      | String a s' => sub_from ml re repl n (Some a) s'
      | "" => ""
      end
  | O =>
      match m ml re prev s with
      | Some r =>
          repl (fst r) ++
          match s with
          | String a s' =>
              match length (whole (fst r)) with
              | O => String a (sub_from ml re repl 0 (Some a) s')
              | S n => sub_from ml re repl n (Some a) s'
              end
          | "" => ""
          end
      | None =>
          match s with
          | String a s' => String a (sub_from ml re repl 0 (Some a) s')
          | "" => ""
          end
      end
  end.

Definition re_sub (ml : bool) (re : regex) (repl : list string -> string) (s : string)
  : string :=
  sub_from ml re repl 0 None s.

Fixpoint lits (s : string) : regex :=
  match s with
  | "" => []
  | String a s' => Lit a :: lits s'
  end.

End Re.

Import Re.

(** ** The script's patterns *)

(** The pattern of [get_current_version]: the word version, [\s*], an
    equals sign, [\s*], and between double quotes group 1,
    [\d+\.\d+\.\d+]. *)
Definition VERSION_RE : regex :=
  (lits "version" ++
   [Star is_space; Lit "="; Star is_space; Lit dquote;
    Open 1; Plus is_digit; Lit "."; Plus is_digit; Lit "."; Plus is_digit; Close 1;
    Lit dquote])%list.

(** The pattern of [update_version]: [^], then group 1 (the word
    version, [\s*], an equals sign, [\s*]), then between double quotes
    group 2, [\d+\.\d+\.\d+]. *)
Definition UPDATE_RE : regex :=
  ([Bol; Open 1] ++ lits "version" ++
   [Star is_space; Lit "="; Star is_space; Close 1; Lit dquote;
    Open 2; Plus is_digit; Lit "."; Plus is_digit; Lit "."; Plus is_digit; Close 2;
    Lit dquote])%list.

(** The pattern of [is_valid_version]: [^\d+\.\d+\.\d+$]. *)
Definition VALID_RE : regex :=
  [Bol; Plus is_digit; Lit "."; Plus is_digit; Lit "."; Plus is_digit; Eol].

(** The pattern of [strip_ansi]: ESC, one of [@-_], any number of
    [0-?], any number of [ -/], one of [@-~]. *)
Definition ANSI_RE : regex :=
  [Lit esc; Cls (between 64 95); Star (between 48 63); Star (between 32 47);
   Cls (between 64 126)].

(** ** The text functions *)

Definition quoted (v : string) : string := String dquote (v ++ String dquote "").

(** [get_current_version], on the text read from Cargo.toml:
    [re.search(VERSION_RE, content)] and group 1 of the match. *)
Definition find_version (content : string) : option string :=
  match re_search false VERSION_RE content with
  | Some (_, ps) => Some (group 1 VERSION_RE ps)
  | None => None
  end.

(** The replacement template of [update_version]: group 1 followed
    by the quoted new version.  (The [re] module also expands backslash
    escapes inside the template; [new_version] reaches this point after
    [is_valid_version] and holds none.) *)
Definition template (new_version : string) (ps : list string) : string :=
  group 1 UPDATE_RE ps ++ quoted new_version.

(** [update_version], on the text read from Cargo.toml:
    [re.sub(UPDATE_RE, template, content, flags=re.MULTILINE)]. *)
Definition rewrite_version (new_version content : string) : string :=
  re_sub true UPDATE_RE (template new_version) content.

(** [is_valid_version]: [re.match(VALID_RE, version) is not None]. *)
Definition is_valid_version (version : string) : bool :=
  match re_match false VALID_RE version with
  | Some _ => true
  | None => false
  end.

(** [strip_ansi]: every match of the pattern is replaced by the empty
    string. *)
Definition strip_ansi (text : string) : string :=
  re_sub false ANSI_RE (fun _ => "") text.

(** ** Banner helpers *)

(** ANSI colour constants of the script. *)
Definition COLOR_RESET : string := String esc "[0m".
Definition COLOR_BORDER : string := String esc "[38;2;138;43;226m".
Definition COLOR_STAR : string := String esc "[38;2;255;215;0m".
Definition COLOR_VERSION_PROMPT : string := String esc "[38;2;255;105;180m".
Definition COLOR_STEP : string := String esc "[38;2;0;191;255m".

Section Width.

(** [wcwidth] of the wcwidth package is not part of the repository: the
    column width of one character, negative for a control character.
    [wcswidth] is the package's sum over the string, -1 as soon as one
    character has a negative width. *)
Variable wcwidth : ascii -> Z.

Fixpoint wcswidth_from (width : Z) (s : string) : Z :=
  match s with
  | "" => width
  | String a s' =>
      let wcw := wcwidth a in
      if (wcw <? 0)%Z then (-1)%Z else wcswidth_from (width + wcw)%Z s'
  end.

Definition wcswidth (s : string) : Z := wcswidth_from 0 s.

Definition center_text (text : string) (width : Z) : string :=
  let visible_length := wcswidth (strip_ansi text) in
  let padding := ((width - visible_length) / 2)%Z in
  Str.spaces padding ++ text ++ Str.spaces (width - padding - visible_length).

Definition center_block (block : list string) (width : Z) : list string :=
  map (fun line => center_text line width) block.

End Width.

(** Exceptions the modelled code can raise. *)
Inductive exn : Type :=
| CalledProcessError (argv : list string) (returncode : Z)
| FileNotFoundError
| EOFError
| ZeroDivisionError
| OverflowError
| ValueError.

(** *** Python floats: IEEE 754 binary64, as [SpecFloat] specifies it *)

Module Float.

Definition prec : Z := 53.
Definition emax : Z := 1024.

Definition float := spec_float.

Definition is_finite (x : float) : bool :=
  match x with
  | S754_zero _ | S754_finite _ _ _ => true
  | _ => false
  end.

(** [float(n)] for an integer [n]: rounded to nearest even, and
    OverflowError when that is not a finite float. *)
Definition of_int (n : Z) : exn + float :=
  let x := binary_normalize prec emax n 0 false in
  if is_finite x then inr x else inl OverflowError.

Definition mul : float -> float -> float := SFmul prec emax.
Definition add : float -> float -> float := SFadd prec emax.
Definition sub : float -> float -> float := SFsub prec emax.

(** An integer as a binary number that is not rounded yet. *)
Definition unrounded (n : Z) : float :=
  match n with
  | Z0 => S754_zero false
  | Zpos p => S754_finite false p 0
  | Zneg p => S754_finite true p 0
  end.

(** [a / b] for two integers, [b] not zero: the exact quotient, rounded
    once to the nearest float, ties to even (not the quotient of the two
    converted operands, which rounds twice above [2 ^ 53]), and
    OverflowError when the quotient is too large for a float. *)
Definition div_int (a b : Z) : exn + float :=
  let q := SFdiv prec emax (unrounded a) (unrounded b) in
  if is_finite q then inr q else inl OverflowError.

(** [int(x)]: truncation towards zero. *)
Definition to_int (x : float) : exn + Z :=
  match x with
  | S754_zero _ => inr 0%Z
  | S754_finite s mant e =>
      let n := if (0 <=? e)%Z then (Zpos mant * 2 ^ e)%Z
               else (Zpos mant / 2 ^ (- e))%Z in
      inr (if s then (- n)%Z else n)
  | S754_infinity _ => inl OverflowError
  | S754_nan => inl ValueError
  end.

End Float.

(** A computation that returns or raises. *)
Definition try_bind {A B : Type} (c : exn + A) (f : A -> exn + B) : exn + B :=
  match c with
  | inl e => inl e
  | inr a => f a
  end.

Notation "'let?' x ':=' c 'in' k" := (try_bind c (fun x => k))
  (at level 10, x name, c at level 100, k at level 200).

(** [[f(x) for x in xs]], stopping at the first exception. *)
Fixpoint try_map {A B : Type} (f : A -> exn + B) (xs : list A) : exn + list B :=
  match xs with
  | [] => inr []
  | x :: xs' =>
      let? y := f x in
      let? ys := try_map f xs' in
      inr (y :: ys)
  end.

Definition color : Type := (Z * Z * Z)%type.

Definition GRADIENT_COLORS : list color :=
  [(138, 43, 226); (75, 0, 130); (0, 191, 255); (30, 144, 255);
   (138, 43, 226); (75, 0, 130); (0, 191, 255)]%Z.

(** [range(n)] *)
Definition range (n : Z) : list Z := map Z.of_nat (seq 0 (Z.to_nat n)).

(** [j / steps_per_segment], the true division of two integers. *)
Definition true_div (a b : Z) : exn + Float.float :=
  if (b =? 0)%Z then inl ZeroDivisionError else Float.div_int a b.

(** [int(start * (1 - t) + end * t)] for one channel. *)
Definition blend (start_c end_c : Z) (t : Float.float) : exn + Z :=
  let? one := Float.of_int 1 in
  let? s := Float.of_int start_c in
  let? e := Float.of_int end_c in
  Float.to_int (Float.add (Float.mul s (Float.sub one t)) (Float.mul e t)).

(** The f-string ESC[38;2;r;g;bm. *)
Definition color_code (r g b : Z) : string :=
  String esc "[38;2;" ++ Str.of_Z r ++ ";" ++ Str.of_Z g ++ ";" ++ Str.of_Z b ++ "m".

(** One pass of the inner loop body of [generate_gradient]. *)
Definition gradient_step (start_color end_color : color) (steps_per_segment j : Z)
  : exn + string :=
  let '(r0, g0, b0) := start_color in
  let '(r1, g1, b1) := end_color in
  let? t := true_div j steps_per_segment in
  let? r := blend r0 r1 t in
  let? g := blend g0 g1 t in
  let? b := blend b0 b1 t in
  inr (color_code r g b).

(** [colors[i]]; the loops below only use indices inside the list. *)
Definition color_at (colors : list color) (i : Z) : color :=
  nth (Z.to_nat i) colors (0, 0, 0)%Z.

Definition generate_gradient (colors : list color) (steps : Z) : exn + list string :=
  let segments := (Z.of_nat (List.length colors) - 1)%Z in
  if (segments =? 0)%Z then inl ZeroDivisionError
  else
    let steps_per_segment := Z.max 1 (steps / segments) in
    let? blocks :=
      try_map (fun i =>
                 let start_color := color_at colors i in
                 let end_color := color_at colors (i + 1) in
                 try_map (gradient_step start_color end_color steps_per_segment)
                         (range steps_per_segment))
              (range segments) in
    inr (List.concat blocks).

(** [create_banner]: the gradient the banner is painted with. *)
Definition banner_width : Z := 80.
Definition cosmic_gradient : exn + list string :=
  generate_gradient GRADIENT_COLORS banner_width.


(** [gradient[k]]; [apply_gradient] only uses indices inside the list. *)
Definition code_at (gradient : list string) (k : Z) : string :=
  nth (Z.to_nat k) gradient "".

(** [apply_gradient]: each character, from column [i] on, is preceded
    by the colour code at index [(i + line_number) % len(gradient)].
    The modulo raises ZeroDivisionError for an empty gradient. *)
Fixpoint apply_gradient_from (gradient : list string) (line_number i : Z) (text : string)
  : exn + string :=
  match text with
  | "" => inr ""
  | String char rest =>
      let len := Z.of_nat (List.length gradient) in
      if (len =? 0)%Z then inl ZeroDivisionError
      else
        let? tail := apply_gradient_from gradient line_number (i + 1) rest in
        inr (code_at gradient ((i + line_number) mod len) ++ String char tail)
  end.

Definition apply_gradient (text : string) (gradient : list string) (line_number : Z)
  : exn + string :=
  apply_gradient_from gradient line_number 0 text.

(** The text [print_colored] prints: the colour, the message and the
    reset code. *)
Definition colored (message color : string) : string :=
  color ++ message ++ COLOR_RESET.

(** ** The release process

    What the script sees of the world is an environment: which tools
    are on the PATH, and for every command line the exit status and the
    standard output of the command.  [main] runs each command line at
    most once, so one status per command line describes any run.  The
    state is the text of Cargo.toml ([None]: no such file), the lines
    still to be read from standard input, and the trace of what the
    script did.  External commands are taken not to edit Cargo.toml.
    The text of Cargo.toml is the text as [open] in text mode gives it
    (decoded, line ends as newlines).  The banner and the glyphs and
    colours of the messages are not part of the trace: a message is
    recorded with its style. *)

Record Env : Type := {
  which : string -> bool;
  returncode : list string -> Z;
  stdout_of : list string -> string
}.

(** The decoration a message is printed with (colour and glyph). *)
Inductive style : Type := Step | Error | Success | Warning.

Inductive event : Type :=
| Logo
| Print (k : style) (message : string)
| Ask (prompt : string)
| Run (argv : list string)
| ReadManifest
| WriteManifest (content : string).

Record Sys : Type := {
  manifest : option string;
  stdin : list string;
  trace : list event
}.

Inductive outcome (A : Type) : Type :=
| Ret (a : A)
| Exit (status : Z)
| Raise (e : exn).

Arguments Ret {A} a.
Arguments Exit {A} status.
Arguments Raise {A} e.

Definition M (A : Type) : Type := Sys -> outcome A * Sys.

Definition ret {A : Type} (a : A) : M A := fun s => (Ret a, s).

Definition bind {A B : Type} (c : M A) (f : A -> M B) : M B :=
  fun s =>
    match c s with
    | (Ret a, s') => f a s'
    | (Exit n, s') => (Exit n, s')
    | (Raise e, s') => (Raise e, s')
    end.

Declare Scope proc_scope.
Delimit Scope proc_scope with proc.
Notation "x <- c ;; k" := (bind c (fun x => k))
  (at level 61, c at next level, right associativity) : proc_scope.
Notation "c ;; k" := (bind c (fun _ => k))
  (at level 61, right associativity) : proc_scope.
Local Open Scope proc_scope.

(** [sys.exit(status)] *)
Definition sys_exit {A : Type} (status : Z) : M A := fun s => (Exit status, s).

Definition raise {A : Type} (e : exn) : M A := fun s => (Raise e, s).

(** [try: body except subprocess.CalledProcessError as e: handler] *)
Definition try_except {A : Type} (body : M A) (handler : list string -> Z -> M A) : M A :=
  fun s =>
    match body s with
    | (Raise (CalledProcessError argv rc), s') => handler argv rc s'
    | r => r
    end.

Definition tell (e : event) : M unit :=
  fun s => (Ret tt, {| manifest := manifest s; stdin := stdin s;
                       trace := trace s ++ [e] |}).

(** [for x in xs: body(x)] *)
Fixpoint for_each {A : Type} (xs : list A) (body : A -> M unit) : M unit :=
  match xs with
  | [] => ret tt
  | x :: xs' => body x ;; for_each xs' body
  end.

(** [input(prompt)]: the next line of standard input, EOFError when
    there is none. *)
Definition input (prompt : string) : M string :=
  tell (Ask prompt) ;;
  fun s =>
    match stdin s with
    | line :: rest =>
        (Ret line, {| manifest := manifest s; stdin := rest; trace := trace s |})
    | [] => (Raise EOFError, s)
    end.

(** Reading Cargo.toml in full. *)
Definition read_manifest : M string :=
  fun s =>
    match manifest s with
    | Some content =>
        (Ret content, {| manifest := manifest s; stdin := stdin s;
                         trace := trace s ++ [ReadManifest] |})
    | None => (Raise FileNotFoundError, s)
    end.

(** Overwriting Cargo.toml. *)
Definition write_manifest (content : string) : M unit :=
  fun s => (Ret tt, {| manifest := Some content; stdin := stdin s;
                       trace := trace s ++ [WriteManifest content] |}).

(** [str.lower] and [str.strip] on 8-bit text. *)
Definition lower_char (a : ascii) : ascii :=
  if between 65 90 a || (between 192 222 a && negb (code a =? 215)%N)
  then ascii_of_N (code a + 32) else a.

Fixpoint lower (s : string) : string :=
  match s with
  | "" => ""
  | String a s' => String (lower_char a) (lower s')
  end.

Fixpoint rstrip (s : string) : string :=
  match s with
  | "" => ""
  | String a s' =>
      match rstrip s' with
      | "" => if is_space a then "" else String a ""
      | r => String a r
      end
  end.

Definition strip (s : string) : string := rstrip (Str.drop_while is_space s).

Definition PROJECT_NAME : string := "git-iris".

Section Process.

Variable env : Env.

(** [subprocess.run(argv, check=check)]: the exit status, or
    CalledProcessError when [check] is set and the status is not 0. *)
Definition subprocess_run (argv : list string) (check : bool) : M Z :=
  tell (Run argv) ;;
  let rc := returncode env argv in
  if check && negb (rc =? 0)%Z then raise (CalledProcessError argv rc) else ret rc.

(** [subprocess.check_output(argv).decode()] *)
Definition check_output (argv : list string) : M string :=
  tell (Run argv) ;;
  let rc := returncode env argv in
  if negb (rc =? 0)%Z then raise (CalledProcessError argv rc)
  else ret (stdout_of env argv).

Definition print_step (step : string) : M unit := tell (Print Step step).
Definition print_error (message : string) : M unit := tell (Print Error message).
Definition print_success (message : string) : M unit := tell (Print Success message).
Definition print_warning (message : string) : M unit := tell (Print Warning message).

Definition print_logo : M unit := tell Logo.

Definition check_tool_installed (tool_name : string) : M unit :=
  if negb (which env tool_name) then
    print_error (tool_name ++ " is not installed. Please install it and try again.") ;;
    sys_exit 1
  else ret tt.

Definition check_branch : M unit :=
  out <- check_output ["git"; "rev-parse"; "--abbrev-ref"; "HEAD"] ;;
  let current_branch := strip out in
  if negb (String.eqb current_branch "main") then
    print_error "You must be on the main branch to release." ;;
    sys_exit 1
  else ret tt.

Definition check_uncommitted_changes : M unit :=
  rc <- subprocess_run ["git"; "diff-index"; "--quiet"; "HEAD"; "--"] false ;;
  if negb (rc =? 0)%Z then
    print_error "You have uncommitted changes. Please commit or stash them before releasing." ;;
    sys_exit 1
  else ret tt.

Definition get_current_version : M string :=
  content <- read_manifest ;;
  match find_version content with
  | Some version => ret version
  | None =>
      print_error "Could not find version in Cargo.toml" ;;
      sys_exit 1
  end.

Definition update_version (new_version : string) : M unit :=
  content <- read_manifest ;;
  let updated_content := rewrite_version new_version content in
  write_manifest updated_content ;;
  print_success ("Updated version in Cargo.toml to " ++ new_version).

Definition run_checks : M unit :=
  print_step "Running cargo check" ;;
  subprocess_run ["cargo"; "check"] true ;;
  print_step "Running cargo test" ;;
  subprocess_run ["cargo"; "test"] true ;;
  print_success "All checks passed".

Definition show_changes : M bool :=
  print_warning "The following files will be modified:" ;;
  subprocess_run ["git"; "status"; "--porcelain"] false ;;
  answer <- input (COLOR_VERSION_PROMPT
                   ++ "Do you want to proceed with these changes? (y/N): "
                   ++ COLOR_RESET) ;;
  let confirmation := lower answer in
  ret (String.eqb confirmation "y").

Definition commit_message (version : string) : string :=
  ":rocket: Release version " ++ version.

Definition tag_name (version : string) : string := "v" ++ version.

Definition commit_and_push (version : string) : M unit :=
  print_step "Committing and pushing changes" ;;
  try_except
    (subprocess_run ["git"; "add"; "Cargo.*"] true ;;
     subprocess_run ["git"; "commit"; "-m"; commit_message version] true ;;
     subprocess_run ["git"; "push"] true ;;
     subprocess_run ["git"; "tag"; tag_name version] true ;;
     subprocess_run ["git"; "push"; "--tags"] true ;;
     print_success ("Changes committed and pushed for version " ++ version))
    (fun _ _ =>
       (* the message also carries str(e) *)
       print_error "Git operations failed" ;;
       sys_exit 1).

Definition main : M unit :=
  print_logo ;;
  print_step ("Starting release process for " ++ PROJECT_NAME) ;;
  for_each ["git"; "cargo"] check_tool_installed ;;
  check_branch ;;
  check_uncommitted_changes ;;
  current_version <- get_current_version ;;
  new_version <- input (COLOR_VERSION_PROMPT ++ "Current version is "
                        ++ current_version
                        ++ ". What should the new version be? " ++ COLOR_RESET) ;;
  (if negb (is_valid_version new_version) then
     print_error "Invalid version format. Please use semantic versioning (e.g., 1.2.3)." ;;
     sys_exit 1
   else ret tt) ;;
  update_version new_version ;;
  run_checks ;;
  proceed <- show_changes ;;
  (if negb proceed then
     print_error "Release cancelled." ;;
     sys_exit 1
   else ret tt) ;;
  commit_and_push new_version ;;
  print_success (PROJECT_NAME ++ " v" ++ new_version
                 ++ " has been successfully released!").

End Process.

(** The exit status of the interpreter: 0 when [main] returns, the
    argument of [sys.exit], and 1 after an uncaught exception. *)
Definition exit_status (o : outcome unit) : Z :=
  match o with
  | Ret _ => 0
  | Exit status => status
  | Raise _ => 1
  end.

(** A run of the script from a fresh process. *)
Definition start (cargo_toml : option string) (lines : list string) : Sys :=
  {| manifest := cargo_toml; stdin := lines; trace := [] |}.

Definition run (env : Env) (cargo_toml : option string) (lines : list string)
  : outcome unit * Sys :=
  main env (start cargo_toml lines).

(** * Part II: properties *)

(** ** Facts about strings *)

Module StrFacts.
Import Str.

Lemma app_nil_r (s : string) : s ++ "" = s.
Proof. induction s as [|a s IH]; simpl; [reflexivity | now rewrite IH]. Qed.

Lemma app_assoc (s t u : string) : (s ++ t) ++ u = s ++ (t ++ u).
Proof. induction s as [|a s IH]; simpl; [reflexivity | now rewrite IH]. Qed.

Lemma length_app (s t : string) : length (s ++ t) = length s + length t.
Proof. induction s as [|a s IH]; simpl; [reflexivity | now rewrite IH]. Qed.

Lemma app_inv_head (s t u : string) : s ++ t = s ++ u -> t = u.
Proof. induction s as [|a s IH]; simpl; intros H; [exact H | injection H; auto]. Qed.

(** Two splittings of one text with prefixes of equal length agree. *)
Lemma app_inj_length (s s' t t' : string) :
  s ++ t = s' ++ t' -> length s = length s' -> s = s' /\ t = t'.
Proof.
  revert s'; induction s as [|a s IH]; intros [|a' s'] H L; simpl in *;
    try discriminate; [now split|].
  injection H as -> H. injection L as L.
  destruct (IH _ H L) as [-> ->]. now split.
Qed.

(** Two splittings of one text: one prefix extends the other. *)
Lemma app_eq_app (s t s' t' : string) :
  s ++ t = s' ++ t' ->
  (exists u, s' = s ++ u /\ t = u ++ t') \/
  (exists a u, s = s' ++ String a u /\ t' = String a u ++ t).
Proof.
  revert s'; induction s as [|a s IH]; intros s' H; simpl in *.
  - left. exists s'. now split.
  - destruct s' as [|a' s']; simpl in *.
    + right. exists a, s. now split.
    + injection H as -> H. destruct (IH _ H) as [(u & -> & ->)|(b & u & -> & ->)].
      * left. exists u. now split.
      * right. exists b, u. now split.
Qed.

Lemma all_app p s t : all p (s ++ t) = all p s && all p t.
Proof.
  induction s as [|a s IH]; simpl; [reflexivity|].
  now rewrite IH, andb_assoc.
Qed.

Lemma last_of_app prev s t : last_of prev (s ++ t) = last_of (last_of prev s) t.
Proof. revert prev; induction s as [|a s IH]; intros prev; simpl; auto. Qed.

Lemma last_of_some prev a s : last_of prev (String a s) = last_of None (String a s).
Proof. reflexivity. Qed.

Lemma length_repeat a n : length (repeat a n) = n.
Proof. induction n; simpl; congruence. Qed.

Lemma all_repeat p a n : p a = true -> all p (repeat a n) = true.
Proof. intros H; induction n; simpl; [reflexivity | now rewrite H]. Qed.

Lemma length_zero (s : string) : length s = 0 -> s = "".
Proof. destruct s; [reflexivity | discriminate]. Qed.

Lemma cat_app (ps qs : list string) : cat (ps ++ qs) = cat ps ++ cat qs.
Proof.
  induction ps as [|w ps IH]; simpl; [reflexivity|].
  now rewrite IH, app_assoc.
Qed.

End StrFacts.

(** ** Facts about the character classes *)

Module ClassFacts.

Lemma between_iff lo hi a :
  between lo hi a = true <-> (lo <= code a /\ code a <= hi)%N.
Proof.
  unfold between. rewrite andb_true_iff, !N.leb_le. reflexivity.
Qed.

Lemma between_false lo hi a :
  (code a < lo \/ hi < code a)%N -> between lo hi a = false.
Proof.
  intros H. destruct (between lo hi a) eqn:E; [|reflexivity].
  apply between_iff in E. lia.
Qed.

(** Two ranges that do not meet. *)
Lemma between_disjoint lo hi lo' hi' a :
  (hi < lo' \/ hi' < lo)%N -> between lo hi a = true -> between lo' hi' a = false.
Proof.
  intros D H. apply between_iff in H. apply between_false. lia.
Qed.

Lemma eqb_code a c : Ascii.eqb a c = true -> code a = code c.
Proof. intros H. apply Ascii.eqb_eq in H. now subst. Qed.

Lemma space_cases a :
  is_space a = true ->
  ((9 <= code a <= 13) \/ (28 <= code a <= 32) \/ code a = 133 \/ code a = 160)%N.
Proof.
  unfold is_space. rewrite !orb_true_iff, !between_iff, !N.eqb_eq. tauto.
Qed.

Lemma digit_cases a : is_digit a = true -> (48 <= code a <= 57)%N.
Proof. unfold is_digit. now rewrite between_iff. Qed.

(** A character of a class is not a given literal outside the class. *)
Lemma class_not_lit (p : ascii -> bool) a c :
  p a = true -> p c = false -> Ascii.eqb a c = false.
Proof.
  intros Ha Hc. destruct (Ascii.eqb_spec a c) as [->|]; congruence.
Qed.

End ClassFacts.

(** ** Facts about the matcher *)

Module ReFacts.
Import Str StrFacts ClassFacts.

(** *** What a match is

    [pieces ml re prev ps rest]: the pieces [ps] are an admissible
    reading of the pattern [re], node by node, at a position preceded by
    [prev] and followed (after the match) by [rest]. *)
Fixpoint pieces (ml : bool) (re : regex) (prev : option ascii) (ps : list string)
    (rest : string) : Prop :=
  match re, ps with
  | [], [] => True
  | n :: re', w :: ps' =>
      let next := pieces ml re' (last_of prev w) ps' rest in
      match n with
      | Lit c => w = String c "" /\ next
      | Cls p => (exists a, w = String a "" /\ p a = true) /\ next
      | Star p => all p w = true /\ next
      | Plus p => w <> "" /\ all p w = true /\ next
      | Open _ | Close _ => w = "" /\ next
      | Bol => w = "" /\ at_bol ml prev = true /\ next
      | Eol => w = "" /\ at_eol ml (cat ps' ++ rest) = true /\ next
      end
  | _, _ => False
  end.

(** The continuation [k] fails on every text that starts in class [p]. *)
Definition rejects (p : ascii -> bool) (k : cont) : Prop :=
  forall prev a s, p a = true -> k prev (String a s) = None.

(** A pattern is deterministic when no repetition can give a character
    back: what follows a repetition never starts in its class. *)
Fixpoint det (ml : bool) (re : regex) : Prop :=
  match re with
  | [] => True
  | Star p :: re' | Plus p :: re' => rejects p (m ml re') /\ det ml re'
  | _ :: re' => det ml re'
  end.

Lemma star_sound p k : forall s prev w r,
  star p k prev s = Some (w, r) ->
  all p w = true /\ exists s', s = w ++ s' /\ k (last_of prev w) s' = Some r.
Proof.
  assert (St : forall prev s w r, stop k prev s = Some (w, r) ->
            all p w = true /\ exists s', s = w ++ s' /\ k (last_of prev w) s' = Some r).
  { unfold stop. intros prev s w r H. destruct (k prev s) eqn:E; [|discriminate].
    injection H as <- <-. split; [reflexivity|]. exists s. now split. }
  induction s as [|a s IH]; intros prev w r H; simpl in H; [now apply St|].
  destruct (p a) eqn:Pa; [|now apply St].
  destruct (star p k (Some a) s) as [[w' r']|] eqn:E; [|now apply St].
  simpl in H. injection H as <- <-.
  destruct (IH _ _ _ E) as (Hw & s' & -> & Hk).
  split; [simpl; now rewrite Pa|]. exists s'. now split.
Qed.

Lemma star_greedy p k : rejects p k -> forall w prev s' r,
  all p w = true -> k (last_of prev w) s' = Some r ->
  star p k prev (w ++ s') = Some (w, r).
Proof.
  intros R. induction w as [|a w IH]; intros prev s' r Hw Hk; simpl in *.
  - destruct s' as [|b s'']; simpl; unfold stop.
    + now rewrite Hk.
    + destruct (p b) eqn:Pb; [rewrite (R _ _ _ Pb) in Hk; discriminate|].
      now rewrite Hk.
  - apply andb_true_iff in Hw as [Pa Hw]. rewrite Pa.
    now rewrite (IH _ _ _ Hw Hk).
Qed.

(** Soundness: what the matcher returns is a match. *)
Lemma m_sound ml : forall re prev s ps rest,
  m ml re prev s = Some (ps, rest) ->
  s = cat ps ++ rest /\ pieces ml re prev ps rest.
Proof.
  assert (Em : forall w r ps rest, emit w r = Some (ps, rest) ->
            exists ps', ps = w :: ps' /\ r = Some (ps', rest)).
  { intros w [[ps' rest']|] ps rest H; simpl in H; [|discriminate].
    injection H as <- <-. now exists ps'. }
  induction re as [|n re IH]; intros prev s ps rest H; simpl in H.
  - injection H as <- <-. now split.
  - destruct n.
    + destruct s as [|a s]; [discriminate|].
      destruct (Ascii.eqb_spec a c) as [->|]; [|discriminate].
      apply Em in H as (ps' & -> & H). apply IH in H as [-> H].
      simpl. now repeat split.
    + destruct s as [|a s]; [discriminate|].
      destruct (p a) eqn:Pa; [|discriminate].
      apply Em in H as (ps' & -> & H). apply IH in H as [-> H].
      simpl. repeat split; [now exists a | exact H].
    + destruct (star p (m ml re) prev s) as [[w [ps' rest']]|] eqn:E; [|discriminate].
      simpl in H. injection H as <- <-.
      apply star_sound in E as (Hw & s' & -> & Hk). apply IH in Hk as [-> Hk].
      simpl. rewrite app_assoc. now repeat split.
    + destruct s as [|a s]; [discriminate|].
      destruct (p a) eqn:Pa; [|discriminate].
      destruct (star p (m ml re) (Some a) s) as [[w [ps' rest']]|] eqn:E; [|discriminate].
      simpl in H. injection H as <- <-.
      apply star_sound in E as (Hw & s' & -> & Hk). apply IH in Hk as [-> Hk].
      simpl. rewrite app_assoc, Pa, Hw. now repeat split.
    + apply Em in H as (ps' & -> & H). apply IH in H as [-> H]. simpl. now repeat split.
    + apply Em in H as (ps' & -> & H). apply IH in H as [-> H]. simpl. now repeat split.
    + destruct (at_bol ml prev) eqn:B; [|discriminate].
      apply Em in H as (ps' & -> & H). apply IH in H as [-> H]. simpl. now repeat split.
    + destruct (at_eol ml s) eqn:B; [|discriminate].
      apply Em in H as (ps' & -> & H). apply IH in H as [-> H]. simpl. now repeat split.
Qed.

(** Completeness: a deterministic pattern finds every match. *)
Lemma m_complete ml : forall re, det ml re -> forall prev ps rest,
  pieces ml re prev ps rest -> m ml re prev (cat ps ++ rest) = Some (ps, rest).
Proof.
  induction re as [|n re IH]; intros D prev ps rest H.
  - destruct ps; [reflexivity | contradiction].
  - destruct ps as [|w ps]; [contradiction|]. simpl in H.
    destruct n; simpl in D |- *.
    + destruct H as [-> H]. simpl in H |- *. rewrite Ascii.eqb_refl.
      now rewrite (IH D _ _ _ H).
    + destruct H as [(a & -> & Pa) H]. simpl in H |- *. rewrite Pa.
      now rewrite (IH D _ _ _ H).
    + destruct D as [R D]. destruct H as [Hw H]. rewrite app_assoc.
      now rewrite (star_greedy _ _ R _ _ _ _ Hw (IH D _ _ _ H)).
    + destruct D as [R D]. destruct H as (Hne & Hw & H).
      destruct w as [|a w]; [congruence|]. simpl in Hw |- *.
      apply andb_true_iff in Hw as [Pa Hw]. rewrite Pa, app_assoc.
      now rewrite (star_greedy _ _ R _ _ _ _ Hw (IH D _ _ _ H)).
    + destruct H as [-> H]. simpl in H |- *. now rewrite (IH D _ _ _ H).
    + destruct H as [-> H]. simpl in H |- *. now rewrite (IH D _ _ _ H).
    + destruct H as (-> & B & H). simpl in H |- *. rewrite B.
      now rewrite (IH D _ _ _ H).
    + destruct H as (-> & B & H). simpl in H |- *. rewrite B.
      now rewrite (IH D _ _ _ H).
Qed.

(** *** Rejection lemmas, to establish [det] for a concrete pattern *)

Lemma rejects_lit ml p c re : p c = false -> rejects p (m ml (Lit c :: re)).
Proof.
  intros Hc prev a s Pa. simpl. now rewrite (class_not_lit p a c Pa Hc).
Qed.

Lemma rejects_cls ml p q re :
  (forall a, p a = true -> q a = false) -> rejects p (m ml (Cls q :: re)).
Proof. intros D prev a s Pa. simpl. now rewrite (D a Pa). Qed.

Lemma rejects_star ml p q re :
  (forall a, p a = true -> q a = false) -> rejects p (m ml re) ->
  rejects p (m ml (Star q :: re)).
Proof.
  intros D R prev a s Pa. simpl. rewrite (D a Pa). unfold stop.
  now rewrite (R prev a s Pa).
Qed.

Lemma rejects_group_close ml p g re :
  rejects p (m ml re) -> rejects p (m ml (Close g :: re)).
Proof. intros R prev a s Pa. simpl. now rewrite (R prev a s Pa). Qed.

Lemma rejects_eol ml p re : p newline = false -> rejects p (m ml (Eol :: re)).
Proof.
  intros Hn prev a s Pa. simpl.
  now rewrite (class_not_lit p a newline Pa Hn).
Qed.

(** *** [re.search] finds the leftmost match *)

Lemma search_some ml re : forall s pos prev i ps,
  search_from ml re pos prev s = Some (i, ps) ->
  exists pre rest,
    s = pre ++ cat ps ++ rest /\ i = pos + length pre /\
    m ml re (last_of prev pre) (cat ps ++ rest) = Some (ps, rest) /\
    forall pre' s', s = pre' ++ s' -> length pre' < length pre ->
                    m ml re (last_of prev pre') s' = None.
Proof.
  induction s as [|a s IH]; intros pos prev i ps H; simpl in H.
  - destruct (m ml re prev "") as [[ps' rest]|] eqn:E; [|discriminate].
    injection H as <- <-. destruct (m_sound _ _ _ _ _ _ E) as [Hs _].
    exists "", rest. simpl. rewrite <- Hs. repeat split; auto.
    intros pre' s' _ L. simpl in L. lia.
  - destruct (m ml re prev (String a s)) as [[ps' rest]|] eqn:E.
    + injection H as <- <-. destruct (m_sound _ _ _ _ _ _ E) as [Hs _].
      exists "", rest. simpl. rewrite <- Hs. repeat split; auto.
      intros pre' s' _ L. simpl in L. lia.
    + destruct (IH _ _ _ _ H) as (pre & rest & -> & -> & Hm & Hmin).
      exists (String a pre), rest. simpl.
      split; [reflexivity|]. split; [lia|]. split; [exact Hm|].
      intros pre' s' Hsplit L. destruct pre' as [|b pre']; simpl in *.
      * now subst s'.
      * injection Hsplit as <- Hsplit. apply Hmin; [exact Hsplit | lia].
Qed.

Lemma search_none ml re : forall s pos prev,
  search_from ml re pos prev s = None ->
  forall pre' s', s = pre' ++ s' -> m ml re (last_of prev pre') s' = None.
Proof.
  induction s as [|a s IH]; intros pos prev H pre' s' Hs; simpl in H.
  - destruct (m ml re prev "") as [[ps' rest]|] eqn:E; [discriminate|].
    destruct pre'; [|discriminate]. simpl in *. now subst s'.
  - destruct (m ml re prev (String a s)) as [[ps' rest]|] eqn:E; [discriminate|].
    destruct pre' as [|b pre']; simpl in *.
    + now subst s'.
    + injection Hs as <- Hs. now apply (IH _ _ H).
Qed.

(** The search succeeds as soon as some position has a match. *)
Lemma search_finds ml re : forall pre prev pos s' ps rest,
  m ml re (last_of prev pre) s' = Some (ps, rest) ->
  exists i ps', search_from ml re pos prev (pre ++ s') = Some (i, ps').
Proof.
  intros pre prev pos s' ps rest Hm.
  destruct (search_from ml re pos prev (pre ++ s')) as [[i ps']|] eqn:E; [eauto|].
  rewrite (search_none _ _ _ _ _ E pre s' eq_refl) in Hm. discriminate.
Qed.

(** *** Matches do not depend on the text after them

    In a pattern without [$] the conditions on a match say nothing
    about the text that follows it. *)

Fixpoint eol_free (re : regex) : Prop :=
  match re with
  | [] => True
  | Eol :: _ => False
  | _ :: re' => eol_free re'
  end.

Lemma pieces_rest ml : forall re, eol_free re -> forall prev ps rest rest',
  pieces ml re prev ps rest -> pieces ml re prev ps rest'.
Proof.
  induction re as [|n re IH]; intros F prev ps rest rest' H.
  - destruct ps; [exact I | contradiction].
  - destruct ps as [|w ps]; [contradiction|].
    destruct n; simpl in F, H |- *; try contradiction;
      intuition eauto.
Qed.

Definition extend (r : string) (x : option result) : option result :=
  match x with
  | Some (ps, rest) => Some (ps, rest ++ r)
  | None => None
  end.

(** [safe ml re r]: appending [r] to a text neither creates nor
    destroys nor changes a match that starts inside the text. *)
Definition safe (ml : bool) (re : regex) (r : string) : Prop :=
  (forall prev, m ml re prev "" = None) /\
  forall prev a s, m ml re prev (String a s ++ r) = extend r (m ml re prev (String a s)).

(** A match never runs from inside the text into [r]. *)
Definition no_spill (ml : bool) (re : regex) (r : string) : Prop :=
  forall prev ps rest a s c u,
    pieces ml re prev ps rest ->
    cat ps = String a s ++ String c u -> r = String c u ++ rest -> False.

Lemma safe_intro ml re r :
  eol_free re -> det ml re -> (forall prev, m ml re prev "" = None) ->
  no_spill ml re r -> safe ml re r.
Proof.
  intros F D E NS. split; [exact E|]. intros prev a s.
  destruct (m ml re prev (String a s)) as [[ps rest]|] eqn:H1; unfold extend.
  - apply m_sound in H1 as [Hs H1]. rewrite Hs, app_assoc.
    apply m_complete; [exact D|]. now apply pieces_rest with rest.
  - destruct (m ml re prev (String a s ++ r)) as [[ps rest]|] eqn:H2; [|reflexivity].
    exfalso. apply m_sound in H2 as [Hs H2].
    destruct (app_eq_app _ _ _ _ Hs) as [(u & Hc & Hr)|(b & u & Hc & Hr)].
    + destruct u as [|c u].
      * rewrite app_nil_r in Hc.
        assert (H3 : m ml re prev (cat ps ++ "") = Some (ps, "")).
        { apply m_complete; [exact D|]. now apply pieces_rest with rest. }
        rewrite app_nil_r, Hc in H3. congruence.
      * exact (NS _ _ _ _ _ _ _ H2 Hc Hr).
    + assert (H3 : m ml re prev (cat ps ++ String b u) = Some (ps, String b u)).
      { apply m_complete; [exact D|]. now apply pieces_rest with rest. }
      rewrite <- Hc in H3. congruence.
Qed.

(** *** [re.sub] *)

Section Sub.

Variables (ml : bool) (re : regex) (repl : list string -> string).

Lemma sub_skip : forall w prev r,
  sub_from ml re repl (length w) prev (w ++ r) = sub_from ml re repl 0 (last_of prev w) r.
Proof.
  induction w as [|a w IH]; intros prev r; simpl; [reflexivity | apply IH].
Qed.

(** A match at the current position is replaced and the scan resumes
    after it. *)
Lemma sub_match prev s ps rest :
  m ml re prev s = Some (ps, rest) -> whole ps <> "" ->
  sub_from ml re repl 0 prev s =
  repl ps ++ sub_from ml re repl 0 (last_of prev (whole ps)) rest.
Proof.
  intros H Hne. destruct (m_sound _ _ _ _ _ _ H) as [Hs _].
  unfold whole in *. destruct (cat ps) as [|a w] eqn:Ew; [congruence|].
  subst s. simpl. simpl in H. rewrite H. simpl. unfold whole. rewrite Ew. simpl.
  now rewrite sub_skip.
Qed.

(** Where nothing matches the text is copied. *)
Lemma sub_copy : forall s prev r,
  (forall s1 a s2, s = s1 ++ String a s2 ->
                   m ml re (last_of prev s1) (String a s2 ++ r) = None) ->
  sub_from ml re repl 0 prev (s ++ r) = s ++ sub_from ml re repl 0 (last_of prev s) r.
Proof.
  induction s as [|a s IH]; intros prev r H; [reflexivity|].
  simpl. pose proof (H "" a s eq_refl) as H0. simpl in H0. rewrite H0.
  f_equal. apply IH. intros s1 b s2 ->. apply (H (String a s1) b s2). reflexivity.
Qed.

Lemma sub_empty prev : m ml re prev "" = None -> sub_from ml re repl 0 prev "" = "".
Proof. intros H. simpl. now rewrite H. Qed.

(** The scan of [s ++ r] is the scan of [s] followed by the scan of
    [r], when [r] is safe. *)
Lemma sub_app r : safe ml re r -> forall s skip prev,
  skip <= length s ->
  sub_from ml re repl skip prev (s ++ r) =
  sub_from ml re repl skip prev s ++ sub_from ml re repl 0 (last_of prev s) r.
Proof.
  intros [E Sf]. induction s as [|a s IH]; intros skip prev L.
  - simpl in L. assert (skip = 0) as -> by lia.
    rewrite sub_empty by apply E. reflexivity.
  - destruct skip as [|n].
    + change (sub_from ml re repl 0 prev (String a s ++ r)) with
        (match m ml re prev (String a s ++ r) with
         | Some x =>
             repl (fst x) ++
             match length (whole (fst x)) with
             | O => String a (sub_from ml re repl 0 (Some a) (s ++ r))
             | S n => sub_from ml re repl n (Some a) (s ++ r)
             end
         | None => String a (sub_from ml re repl 0 (Some a) (s ++ r))
         end).
      rewrite Sf.
      destruct (m ml re prev (String a s)) as [[ps rest]|] eqn:H; simpl;
        rewrite H; simpl.
      * destruct (m_sound _ _ _ _ _ _ H) as [Hs _].
        apply (f_equal length) in Hs. rewrite length_app in Hs. simpl in Hs.
        unfold whole in *. rewrite app_assoc. f_equal.
        destruct (length (cat ps)) as [|n]; simpl.
        -- now rewrite IH by lia.
        -- apply IH. lia.
      * now rewrite IH by lia.
    + simpl. apply IH. simpl in L. lia.
Qed.

End Sub.

End ReFacts.

(** ** The version patterns

    The language of the three version patterns, stated on the text. *)

(** A non-empty run of decimal digits. *)
Definition digits (w : string) : Prop := w <> "" /\ Str.all is_digit w = true.

(** A possibly empty run of whitespace. *)
Definition blank (w : string) : Prop := Str.all is_space w = true.

(** Three dot-separated non-negative decimal integers and nothing else. *)
Definition triple (t : string) : Prop :=
  exists X Y Z, digits X /\ digits Y /\ digits Z /\ t = X ++ "." ++ Y ++ "." ++ Z.

(** The part of a version assignment before the opening quote. *)
Definition assign_head (h : string) : Prop :=
  exists w1 w2, blank w1 /\ blank w2 /\ h = "version" ++ w1 ++ "=" ++ w2.

(** A version assignment: the head and the quoted triple. *)
Definition assignment (a t : string) : Prop :=
  exists h, assign_head h /\ triple t /\ a = h ++ quoted t.

Module PatternFacts.
Import Str StrFacts ClassFacts ReFacts.

Definition not_char (c : ascii) (a : ascii) : bool := negb (Ascii.eqb a c).

Lemma all_impl (p q : ascii -> bool) w :
  (forall a, p a = true -> q a = true) -> all p w = true -> all q w = true.
Proof.
  intros I. induction w as [|a w IH]; simpl; [reflexivity|].
  rewrite !andb_true_iff. intros [Pa Hw]. split; auto.
Qed.

Lemma digit_not_char c a : is_digit c = false -> is_digit a = true -> not_char c a = true.
Proof.
  intros Hc Ha. unfold not_char. now rewrite (class_not_lit _ _ _ Ha Hc).
Qed.

Lemma space_not_char c a : is_space c = false -> is_space a = true -> not_char c a = true.
Proof.
  intros Hc Ha. unfold not_char. now rewrite (class_not_lit _ _ _ Ha Hc).
Qed.

Lemma last_of_all (q : ascii -> bool) : forall w prev,
  w <> "" -> all q w = true -> exists c, last_of prev w = Some c /\ q c = true.
Proof.
  induction w as [|a w IH]; intros prev Hne Hw; [congruence|].
  simpl in Hw. apply andb_true_iff in Hw as [Qa Hw].
  destruct w as [|b w].
  - exists a. now split.
  - apply (IH (Some a)); [discriminate | exact Hw].
Qed.

(** *** The validation pattern *)

Lemma det_VALID ml : det ml VALID_RE.
Proof.
  unfold VALID_RE. cbn [det]. repeat split;
    first [apply rejects_lit; reflexivity | apply rejects_eol; reflexivity].
Qed.

Definition valid_ps (X Y Z : string) : list string := [""; X; "."; Y; "."; Z; ""].

Lemma valid_pieces ml prev ps rest :
  pieces ml VALID_RE prev ps rest <->
  exists X Y Z, digits X /\ digits Y /\ digits Z /\ ps = valid_ps X Y Z /\
                at_bol ml prev = true /\ at_eol ml rest = true.
Proof.
  unfold VALID_RE, valid_ps, digits. split.
  - intros H.
    do 7 (destruct ps as [|? ps]; [simpl in H; tauto|]).
    destruct ps; [|simpl in H; tauto].
    simpl in H. decompose [and] H. subst.
    eexists _, _, _. repeat split; eauto.
  - intros (X & Y & Z & [? ?] & [? ?] & [? ?] & -> & ? & ?).
    simpl. repeat split; auto.
Qed.

Lemma triple_chars t :
  triple t -> all (fun a => is_digit a || Ascii.eqb a ".") t = true.
Proof.
  intros (X & Y & Z & [_ HX] & [_ HY] & [_ HZ] & ->).
  assert (D : forall w, all is_digit w = true ->
                        all (fun a => is_digit a || Ascii.eqb a ".") w = true).
  { intros w. apply all_impl. intros a ->. reflexivity. }
  rewrite !all_app, (D _ HX), (D _ HY), (D _ HZ). reflexivity.
Qed.

(** [is_valid_version] accepts exactly the triples and the triples
    followed by one newline. *)
Lemma is_valid_version_iff s :
  is_valid_version s = true <-> triple s \/ exists t, triple t /\ s = t ++ NL.
Proof.
  unfold is_valid_version, re_match. split.
  - destruct (m false VALID_RE None s) as [[ps rest]|] eqn:E; [intros _|discriminate].
    apply m_sound in E as [-> H]. apply valid_pieces in H.
    destruct H as (X & Y & Z & HX & HY & HZ & -> & _ & He).
    assert (T : triple (X ++ "." ++ Y ++ "." ++ Z)) by (exists X, Y, Z; auto).
    assert (C : cat (valid_ps X Y Z) = X ++ "." ++ Y ++ "." ++ Z).
    { simpl. now rewrite !app_nil_r. }
    rewrite C. destruct rest as [|a rest]; simpl in He.
    + left. now rewrite app_nil_r.
    + right. apply andb_true_iff in He as [Ha Hr]. apply Ascii.eqb_eq in Ha.
      simpl in Hr. apply String.eqb_eq in Hr. subst. eauto.
  - intros H.
    assert (G : exists X Y Z rest, digits X /\ digits Y /\ digits Z /\
                s = cat (valid_ps X Y Z) ++ rest /\ at_eol false rest = true).
    { destruct H as [(X & Y & Z & HX & HY & HZ & ->)|(t & (X & Y & Z & HX & HY & HZ & ->) & ->)].
      - exists X, Y, Z, "". simpl. rewrite !app_nil_r. auto.
      - exists X, Y, Z, NL. simpl. rewrite !app_nil_r, !app_assoc. simpl.
        rewrite !app_assoc. auto. }
    destruct G as (X & Y & Z & rest & HX & HY & HZ & -> & He).
    rewrite (m_complete false VALID_RE (det_VALID false) None (valid_ps X Y Z) rest);
      [reflexivity|].
    apply valid_pieces. exists X, Y, Z. repeat split; solve [apply HX | apply HY | apply HZ | exact He].
Qed.

(** *** The extraction and update patterns *)

Lemma det_VERSION ml : det ml VERSION_RE.
Proof.
  unfold VERSION_RE. cbn [det lits List.app]. repeat split;
    first [apply rejects_lit; reflexivity
          | apply rejects_group_close; apply rejects_lit; reflexivity].
Qed.

Lemma det_UPDATE ml : det ml UPDATE_RE.
Proof.
  unfold UPDATE_RE. cbn [det lits List.app]. repeat split;
    first [apply rejects_lit; reflexivity
          | apply rejects_group_close; apply rejects_lit; reflexivity].
Qed.

Definition DQ : string := String dquote "".

Definition version_ps (w1 w2 X Y Z : string) : list string :=
  ["v"; "e"; "r"; "s"; "i"; "o"; "n"; w1; "="; w2; DQ;
   ""; X; "."; Y; "."; Z; ""; DQ].

Definition update_ps (w1 w2 X Y Z : string) : list string :=
  [""; ""; "v"; "e"; "r"; "s"; "i"; "o"; "n"; w1; "="; w2; ""; DQ;
   ""; X; "."; Y; "."; Z; ""; DQ].

Lemma version_pieces ml prev ps rest :
  pieces ml VERSION_RE prev ps rest <->
  exists w1 w2 X Y Z, blank w1 /\ blank w2 /\ digits X /\ digits Y /\ digits Z /\
                      ps = version_ps w1 w2 X Y Z.
Proof.
  unfold VERSION_RE, version_ps, digits, blank, DQ. cbn [lits List.app]. split.
  - intros H.
    do 19 (destruct ps as [|? ps]; [simpl in H; tauto|]).
    destruct ps; [|simpl in H; tauto].
    simpl in H. decompose [and] H. subst.
    eexists _, _, _, _, _. repeat split; eauto.
  - intros (w1 & w2 & X & Y & Z & ? & ? & [? ?] & [? ?] & [? ?] & ->).
    simpl. repeat split; auto.
Qed.

Lemma update_pieces ml prev ps rest :
  pieces ml UPDATE_RE prev ps rest <->
  exists w1 w2 X Y Z, blank w1 /\ blank w2 /\ digits X /\ digits Y /\ digits Z /\
                      ps = update_ps w1 w2 X Y Z /\ at_bol ml prev = true.
Proof.
  unfold UPDATE_RE, update_ps, digits, blank, DQ. cbn [lits List.app]. split.
  - intros H.
    do 22 (destruct ps as [|? ps]; [simpl in H; tauto|]).
    destruct ps; [|simpl in H; tauto].
    simpl in H. decompose [and] H. subst.
    eexists _, _, _, _, _. repeat split; eauto.
  - intros (w1 & w2 & X & Y & Z & ? & ? & [? ?] & [? ?] & [? ?] & -> & ?).
    simpl. repeat split; auto.
Qed.

Lemma cat_version_ps w1 w2 X Y Z :
  cat (version_ps w1 w2 X Y Z) =
  ("version" ++ w1 ++ "=" ++ w2) ++ quoted (X ++ "." ++ Y ++ "." ++ Z).
Proof.
  unfold version_ps, quoted, DQ. simpl. rewrite !app_assoc. simpl.
  rewrite !app_assoc. reflexivity.
Qed.

Lemma cat_update_ps w1 w2 X Y Z :
  cat (update_ps w1 w2 X Y Z) = cat (version_ps w1 w2 X Y Z).
Proof. reflexivity. Qed.

Lemma group_version_ps w1 w2 X Y Z :
  group 1 VERSION_RE (version_ps w1 w2 X Y Z) = X ++ "." ++ Y ++ "." ++ Z.
Proof.
  unfold group, VERSION_RE, version_ps. simpl. now rewrite !app_nil_r.
Qed.

Lemma group_update_ps w1 w2 X Y Z :
  group 1 UPDATE_RE (update_ps w1 w2 X Y Z) = "version" ++ w1 ++ "=" ++ w2.
Proof.
  unfold group, UPDATE_RE, update_ps. simpl. now rewrite !app_nil_r.
Qed.

(** What the extraction pattern matches at a position, on the text. *)
Lemma version_at ml prev s ps rest :
  m ml VERSION_RE prev s = Some (ps, rest) ->
  exists a t, assignment a t /\ s = a ++ rest /\ whole ps = a /\
              group 1 VERSION_RE ps = t.
Proof.
  intros H. apply m_sound in H as [-> H]. apply version_pieces in H.
  destruct H as (w1 & w2 & X & Y & Z & B1 & B2 & HX & HY & HZ & ->).
  exists (cat (version_ps w1 w2 X Y Z)), (X ++ "." ++ Y ++ "." ++ Z).
  split; [|split; [reflexivity | split; [reflexivity | apply group_version_ps]]].
  rewrite cat_version_ps. eexists. split; [now exists w1, w2|].
  split; [now exists X, Y, Z | reflexivity].
Qed.

Lemma version_at_complete ml prev a t rest :
  assignment a t ->
  exists ps, m ml VERSION_RE prev (a ++ rest) = Some (ps, rest) /\ whole ps = a /\
             group 1 VERSION_RE ps = t.
Proof.
  intros (h & (w1 & w2 & B1 & B2 & ->) & (X & Y & Z & HX & HY & HZ & ->) & ->).
  exists (version_ps w1 w2 X Y Z). rewrite <- cat_version_ps.
  split; [|split; [reflexivity | apply group_version_ps]].
  apply m_complete; [apply det_VERSION|]. apply version_pieces.
  now exists w1, w2, X, Y, Z.
Qed.

Lemma update_at ml prev s ps rest :
  m ml UPDATE_RE prev s = Some (ps, rest) ->
  exists h t, assign_head h /\ triple t /\ s = (h ++ quoted t) ++ rest /\
              whole ps = h ++ quoted t /\ group 1 UPDATE_RE ps = h /\
              at_bol ml prev = true.
Proof.
  intros H. apply m_sound in H as [-> H]. apply update_pieces in H.
  destruct H as (w1 & w2 & X & Y & Z & B1 & B2 & HX & HY & HZ & -> & Hb).
  exists ("version" ++ w1 ++ "=" ++ w2), (X ++ "." ++ Y ++ "." ++ Z).
  unfold whole. rewrite cat_update_ps, cat_version_ps, group_update_ps.
  repeat split; auto; [now exists w1, w2 | now exists X, Y, Z].
Qed.

Lemma update_at_complete ml prev h t rest :
  assign_head h -> triple t -> at_bol ml prev = true ->
  exists ps, m ml UPDATE_RE prev ((h ++ quoted t) ++ rest) = Some (ps, rest) /\
             whole ps = h ++ quoted t /\ group 1 UPDATE_RE ps = h.
Proof.
  intros (w1 & w2 & B1 & B2 & ->) (X & Y & Z & HX & HY & HZ & ->) Hb.
  exists (update_ps w1 w2 X Y Z). unfold whole.
  rewrite <- cat_version_ps, <- cat_update_ps.
  split; [|split; [reflexivity | apply group_update_ps]].
  apply m_complete; [apply det_UPDATE|]. apply update_pieces.
  now exists w1, w2, X, Y, Z.
Qed.

(** An assignment starts with the letter v and holds no other v; it
    ends with a double quote. *)
Lemma assignment_shape a t :
  assignment a t ->
  (exists tail, a = String "v" tail /\ all (not_char "v") tail = true) /\
  forall prev, last_of prev a = Some dquote.
Proof.
  intros (h & (w1 & w2 & B1 & B2 & ->) & (X & Y & Z & [_ HX] & [_ HY] & [_ HZ] & ->) & ->).
  assert (S : forall w, all is_space w = true -> all (not_char "v") w = true).
  { intros w. apply all_impl. intros a. now apply space_not_char. }
  assert (D : forall w, all is_digit w = true -> all (not_char "v") w = true).
  { intros w. apply all_impl. intros a. now apply digit_not_char. }
  split.
  - eexists. split; [simpl; reflexivity|]. unfold quoted. simpl.
    rewrite !all_app. simpl. rewrite !all_app. simpl. rewrite !all_app. simpl.
    now rewrite (S _ B1), (S _ B2), (D _ HX), (D _ HY), (D _ HZ).
  - intros prev. unfold quoted.
    change (String dquote ((X ++ "." ++ Y ++ "." ++ Z) ++ String dquote ""))
      with (String dquote "" ++ ((X ++ "." ++ Y ++ "." ++ Z) ++ String dquote "")).
    now rewrite !last_of_app.
Qed.

Lemma assignment_nonempty a t : assignment a t -> a <> "".
Proof.
  intros H. destruct (assignment_shape _ _ H) as [(tail & -> & _) _]. discriminate.
Qed.

Lemma assignment_intro h t : assign_head h -> triple t -> assignment (h ++ quoted t) t.
Proof. intros Hh Ht. now exists h. Qed.

Lemma head_starts_v h : assign_head h -> exists r, h = String "v" r.
Proof. intros (w1 & w2 & _ & _ & ->). simpl. eauto. Qed.

(** A match of either pattern holds the letter v at its start only. *)
Lemma no_v_inside a t b s u :
  assignment a t -> a = String b s ++ String "v" u -> False.
Proof.
  intros H E. destruct (assignment_shape _ _ H) as [(tail & -> & Hv) _].
  simpl in E. injection E as _ ->. rewrite all_app in Hv. simpl in Hv.
  rewrite andb_false_r in Hv. discriminate.
Qed.

Lemma UPDATE_empty ml prev : m ml UPDATE_RE prev "" = None.
Proof. simpl. now destruct (at_bol ml prev). Qed.

Lemma eol_free_UPDATE : eol_free UPDATE_RE.
Proof. exact I. Qed.

(** Text that starts with the letter v is safe for the update pattern:
    no match runs into it from the left. *)
Lemma safe_UPDATE_v ml r : safe ml UPDATE_RE (String "v" r).
Proof.
  apply safe_intro;
    [apply eol_free_UPDATE | apply det_UPDATE | apply UPDATE_empty|].
  intros prev ps rest a s c u H Hc Hr. injection Hr as <- _.
  assert (Hm : m ml UPDATE_RE prev (cat ps ++ "") = Some (ps, "")).
  { apply m_complete; [apply det_UPDATE|]. now apply pieces_rest with rest. }
  apply update_at in Hm as (h & t & Hh & Ht & _ & Hw & _).
  unfold whole in Hw. rewrite Hc in Hw.
  exact (no_v_inside _ _ _ _ _ (assignment_intro _ _ Hh Ht) (eq_sym Hw)).
Qed.

(** Nor does a match run into text without a double quote. *)
Lemma safe_UPDATE_unquoted ml r :
  all (not_char dquote) r = true -> safe ml UPDATE_RE r.
Proof.
  intros Hr.
  apply safe_intro;
    [apply eol_free_UPDATE | apply det_UPDATE | apply UPDATE_empty|].
  intros prev ps rest a s c u H Hc E.
  assert (Hm : m ml UPDATE_RE prev (cat ps ++ "") = Some (ps, "")).
  { apply m_complete; [apply det_UPDATE|]. now apply pieces_rest with rest. }
  apply update_at in Hm as (h & t & Hh & Ht & _ & Hw & _).
  destruct (assignment_shape _ _ (assignment_intro _ _ Hh Ht)) as [_ Hl].
  rewrite E, all_app in Hr. apply andb_true_iff in Hr as [Hu _].
  destruct (last_of_all _ (String c u) (last_of None (String a s))
              ltac:(discriminate) Hu) as (x & Hx & Hnx).
  specialize (Hl None). unfold whole in Hw. rewrite <- Hw, Hc, last_of_app, Hx in Hl.
  injection Hl as ->. discriminate.
Qed.

End PatternFacts.

(** ** Extraction and update of the version, on the text *)

(** An assignment with triple [t] starts at offset [i] of [text]. *)
Definition occurs (text : string) (i : nat) (t : string) : Prop :=
  exists pre a post, text = pre ++ a ++ post /\ length pre = i /\ assignment a t.

(** [pre] ends where a line starts. *)
Definition line_start (pre : string) : Prop := pre = "" \/ exists p, pre = p ++ NL.

(** The scan of [update_version] resumed just after the closing quote
    of a replaced assignment. *)
Definition rewrite_rest (new_version post : string) : string :=
  sub_from true UPDATE_RE (template new_version) 0 (Some dquote) post.

Module VersionFacts.
Import Str StrFacts ClassFacts ReFacts PatternFacts.

Lemma occurs_unique text i t t' : occurs text i t -> occurs text i t' -> t = t'.
Proof.
  intros (pre & a & post & -> & <- & Ha) (pre' & a' & post' & E & L & Ha').
  destruct (app_inj_length _ _ _ _ E (eq_sym L)) as [_ E'].
  destruct (version_at_complete false None a t post Ha) as (ps & Hm & _ & Hg).
  destruct (version_at_complete false None a' t' post' Ha') as (ps' & Hm' & _ & Hg').
  rewrite E' in Hm. rewrite Hm in Hm'. injection Hm' as <- _. congruence.
Qed.

(** [re.search] with the extraction pattern stops at the first
    occurrence. *)
Lemma search_occurs text i ps :
  re_search false VERSION_RE text = Some (i, ps) ->
  occurs text i (group 1 VERSION_RE ps) /\
  forall j t', occurs text j t' -> i <= j.
Proof.
  unfold re_search. intros E.
  apply search_some in E as (pre & rest & -> & -> & Hm & Hmin).
  destruct (version_at _ _ _ _ _ Hm) as (a & t & Ha & Hs & Hw & Hg).
  split.
  - exists pre, a, rest. unfold whole in Hw. rewrite Hw in *. rewrite Hg. auto.
  - intros j t' (pre' & a' & post' & E' & <- & Ha').
    destruct (Nat.le_gt_cases (length pre) (length pre')) as [|L]; [assumption|].
    exfalso.
    destruct (version_at_complete false (last_of None pre') a' t' post' Ha')
      as (ps' & Hm' & _).
    rewrite (Hmin _ _ E' L) in Hm'. discriminate.
Qed.

(** [get_current_version] returns the triple of the first occurrence. *)
Lemma find_version_some text t :
  find_version text = Some t ->
  exists i, occurs text i t /\ forall j t', occurs text j t' -> i <= j.
Proof.
  unfold find_version.
  destruct (re_search false VERSION_RE text) as [[i ps]|] eqn:E; [|discriminate].
  intros H. injection H as <-. exists i. now apply search_occurs.
Qed.

Lemma find_version_none text :
  find_version text = None <-> forall i t, ~ occurs text i t.
Proof.
  unfold find_version, re_search. split.
  - destruct (search_from false VERSION_RE 0 None text) as [[i ps]|] eqn:E; [discriminate|].
    intros _ i t (pre & a & post & Ht & _ & Ha).
    destruct (version_at_complete false (last_of None pre) a t post Ha) as (ps & Hm & _).
    rewrite (search_none _ _ _ _ _ E pre _ Ht) in Hm. discriminate.
  - intros H.
    destruct (search_from false VERSION_RE 0 None text) as [[i ps]|] eqn:E; [|reflexivity].
    exfalso. apply search_some in E as (pre & rest & -> & -> & Hm & _).
    destruct (version_at _ _ _ _ _ Hm) as (a & t & Ha & Hs & Hw & Hg).
    apply (H (length pre) t). exists pre, a, rest. unfold whole in Hw.
    rewrite Hw. auto.
Qed.

Lemma find_version_first text i t :
  occurs text i t -> (forall j t', occurs text j t' -> i <= j) ->
  find_version text = Some t.
Proof.
  intros Ho Hmin. destruct (find_version text) as [t'|] eqn:E.
  - destruct (find_version_some _ _ E) as (i' & Ho' & Hmin').
    assert (i' = i) as -> by (apply Nat.le_antisymm; eauto).
    f_equal. exact (occurs_unique _ _ _ _ Ho' Ho).
  - exfalso. exact (proj1 (find_version_none text) E i t Ho).
Qed.

Lemma at_bol_line_start pre : line_start pre -> at_bol true (last_of None pre) = true.
Proof.
  intros [->|(p & ->)]; [reflexivity|]. now rewrite last_of_app.
Qed.

(** An occurrence that starts inside [pre] ends inside [pre], when the
    text after [pre] starts with the letter v. *)
Lemma occurs_prefix pre r j t :
  occurs (pre ++ String "v" r) j t -> j < length pre ->
  forall r', occurs (pre ++ r') j t.
Proof.
  intros (pre' & a & post & E & <- & Ha) L r'.
  destruct (app_eq_app _ _ _ _ E) as [(u & -> & Hr)|(c & u & -> & _)].
  - exfalso. rewrite length_app in L. lia.
  - clear L. destruct (app_eq_app _ _ _ _ (eq_sym E)) as [(u' & E1 & E2)|(b & u' & E1 & E2)].
    + rewrite app_assoc in E. apply app_inv_head in E.
      destruct (app_eq_app _ _ _ _ E) as [(x & Hx & Hr)|(b & x & Hx & Hr)].
      * destruct x as [|d x].
        -- rewrite app_nil_r in Hx. subst a. simpl in Hr.
           exists pre', (String c u), r'. rewrite app_assoc. auto.
        -- exfalso. simpl in Hr. injection Hr as <- _.
           exact (no_v_inside _ _ _ _ _ Ha Hx).
      * exists pre', a, (String b x ++ r'). rewrite Hx, !app_assoc. auto.
    + exfalso. apply (f_equal length) in E1. rewrite !length_app in E1. simpl in E1. lia.
Qed.

(** Occurrences past a prefix are occurrences of the remaining text. *)
Lemma occurs_skip p rest j t :
  occurs (p ++ rest) j t -> length p <= j -> occurs rest (j - length p) t.
Proof.
  intros (pre & a & post & E & <- & Ha) L.
  destruct (app_eq_app _ _ _ _ E) as [(u & -> & ->)|(c & u & -> & _)].
  - exists u, a, post. rewrite length_app. repeat split; [lia | exact Ha].
  - rewrite length_app in L. simpl in L. lia.
Qed.

(** A way to check that a text has one occurrence only: the search
    finds it at offset [i], and the text after offset [i] has none. *)
Lemma only_occurrence text i ps p rest :
  re_search false VERSION_RE text = Some (i, ps) ->
  text = p ++ rest -> length p = S i -> find_version rest = None ->
  forall j t', occurs text j t' -> j = i.
Proof.
  intros Hs -> Lp Hn j t' Ho.
  pose proof (proj2 (search_occurs _ _ _ Hs) j t' Ho) as Hle.
  destruct (Nat.eq_dec j i) as [|Hne]; [assumption|]. exfalso.
  assert (L : length p <= j) by lia.
  exact (proj1 (find_version_none rest) Hn _ _ (occurs_skip _ _ _ _ Ho L)).
Qed.

Section Rewrite.

Variable v : string.

Let repl := template v.

(** A stretch of text in which no assignment starts is copied. *)
Lemma rewrite_copy s : forall prev r,
  (forall s1 a s2 h t rest,
      s = s1 ++ String a s2 -> String a s2 ++ r = (h ++ quoted t) ++ rest ->
      assign_head h -> triple t -> False) ->
  sub_from true UPDATE_RE repl 0 prev (s ++ r) =
  s ++ sub_from true UPDATE_RE repl 0 (last_of prev s) r.
Proof.
  intros prev r H. apply sub_copy. intros s1 a s2 Hs.
  destruct (m true UPDATE_RE (last_of prev s1) (String a s2 ++ r)) as [[ps rest]|] eqn:E;
    [exfalso | reflexivity].
  apply update_at in E as (h & t & Hh & Ht & E & _). eauto.
Qed.

(** At the start of a line an assignment is replaced: group 1 is kept
    and the quoted triple becomes the new version. *)
Lemma rewrite_here prev h t post :
  at_bol true prev = true -> assign_head h -> triple t ->
  sub_from true UPDATE_RE repl 0 prev ((h ++ quoted t) ++ post) =
  (h ++ quoted v) ++ rewrite_rest v post.
Proof.
  intros Hb Hh Ht.
  destruct (update_at_complete true prev h t post Hh Ht Hb) as (ps & Hm & Hw & Hg).
  pose proof (assignment_intro _ _ Hh Ht) as Ha.
  rewrite (sub_match _ _ _ _ _ _ _ Hm); rewrite Hw.
  - unfold repl at 1, template. rewrite Hg.
    destruct (assignment_shape _ _ Ha) as [_ ->]. reflexivity.
  - exact (assignment_nonempty _ _ Ha).
Qed.

(** Every line that begins with an assignment is rewritten, whatever
    precedes it. *)
Lemma rewrite_at_line pre h t post :
  line_start pre -> assign_head h -> triple t ->
  rewrite_version v (pre ++ (h ++ quoted t) ++ post) =
  rewrite_version v pre ++ (h ++ quoted v) ++ rewrite_rest v post.
Proof.
  intros Hl Hh Ht. unfold rewrite_version, re_sub.
  destruct (head_starts_v _ Hh) as (r & Er).
  assert (Es : exists r', (h ++ quoted t) ++ post = String "v" r').
  { rewrite Er. simpl. eauto. }
  destruct Es as (r' & Es).
  rewrite Es, sub_app by (apply safe_UPDATE_v || lia).
  rewrite <- Es. f_equal.
  apply rewrite_here; auto using at_bol_line_start.
Qed.

(** The update of a text that ends a line ends a line. *)
Lemma rewrite_line_start pre : line_start pre -> line_start (rewrite_version v pre).
Proof.
  intros [->|(p & ->)]; [left; reflexivity|]. right.
  exists (rewrite_version v p). unfold rewrite_version, re_sub.
  rewrite sub_app by (apply safe_UPDATE_unquoted; reflexivity) || lia. f_equal.
  unfold NL. cbn [sub_from]. cbn [m UPDATE_RE lits List.app].
  destruct (at_bol true (last_of None p)); reflexivity.
Qed.

End Rewrite.

End VersionFacts.

(** ** Claims about the version text functions *)

Module VersionClaims.
Import Str StrFacts ClassFacts ReFacts PatternFacts VersionFacts.

(** Sample manifests. *)
Definition sample_pre : string :=
  "[package]" ++ NL ++ "name = " ++ quoted "git-iris" ++ NL.
Definition sample_head : string := "version = ".
Definition sample_post : string := NL ++ "edition = " ++ quoted "2021" ++ NL.

Definition msrv_pre : string := "rust-version = " ++ quoted "1.70.0" ++ NL.

Definition two_tables : string :=
  "[package]" ++ NL ++ "version = " ++ quoted "0.2.0" ++ NL
  ++ "[dependencies.serde]" ++ NL ++ "version = " ++ quoted "1.0.0" ++ NL.

Lemma digits_intro w : w <> "" -> all is_digit w = true -> digits w.
Proof. now split. Qed.

Lemma triple_intro X Y Z :
  digits X -> digits Y -> digits Z -> triple (X ++ "." ++ Y ++ "." ++ Z).
Proof. intros. now exists X, Y, Z. Qed.

Lemma sample_head_ok : assign_head sample_head.
Proof. exists " ", " ". repeat split. Qed.

Lemma sample_pre_ok : line_start sample_pre.
Proof. right. exists ("[package]" ++ NL ++ "name = " ++ quoted "git-iris"). reflexivity. Qed.

Lemma triple_020 : triple "0.2.0".
Proof. apply (triple_intro "0" "2" "0"); split; (discriminate || reflexivity). Qed.

Lemma triple_030 : triple "0.3.0".
Proof. apply (triple_intro "0" "3" "0"); split; (discriminate || reflexivity). Qed.

(** C2 (code defect): [is_valid_version] is meant to accept three
    dot-separated decimal integers and nothing else, but its pattern
    ends in [$], which also matches just before a final newline: the
    string 1.2.3 followed by a newline is accepted although it is not
    such a triple. *)
Theorem C2_valid_version_accepts_trailing_newline :
  is_valid_version ("1.2.3" ++ NL) = true /\ ~ triple ("1.2.3" ++ NL).
Proof.
  split; [reflexivity|].
  intros H. apply triple_chars in H. discriminate H.
Qed.

(** C1, as stated, fails.  The manifest below holds the line
    version = "0.2.0" after a rust-version line: extraction returns
    1.70.0, and after an update to 0.3.0 it still returns 1.70.0.  In
    the second manifest two lines begin with a version assignment and
    the update rewrites both. *)
Lemma C1_counterexample :
  line_start msrv_pre /\ triple "0.2.0" /\ triple "0.3.0" /\
  find_version (msrv_pre ++ ("version = " ++ quoted "0.2.0") ++ NL) = Some "1.70.0" /\
  find_version
    (rewrite_version "0.3.0" (msrv_pre ++ ("version = " ++ quoted "0.2.0") ++ NL))
  = Some "1.70.0" /\
  rewrite_version "0.3.0" two_tables =
  "[package]" ++ NL ++ "version = " ++ quoted "0.3.0" ++ NL
  ++ "[dependencies.serde]" ++ NL ++ "version = " ++ quoted "0.3.0" ++ NL.
Proof.
  split; [right; exists ("rust-version = " ++ quoted "1.70.0"); reflexivity|].
  split; [exact triple_020|]. split; [exact triple_030|].
  repeat split; vm_compute; reflexivity.
Qed.

(** C1, amended.  Let the text be [pre], a version assignment with
    triple [t] at the start of a line, and [post], and let no
    assignment occur in the text before that line.  Then extraction
    returns [t]; for every triple [v], extraction after an update to
    [v] returns [v]; the update leaves [pre] and the head of the
    assignment unchanged and puts [v] between the quotes; and when the
    text has no other occurrence of an assignment, the rest of the text
    is unchanged as well. *)
Theorem C1_extract_update_round_trip pre h t post v :
  line_start pre -> assign_head h -> triple t -> triple v ->
  (forall j t', occurs (pre ++ (h ++ quoted t) ++ post) j t' -> length pre <= j) ->
  find_version (pre ++ (h ++ quoted t) ++ post) = Some t /\
  find_version (rewrite_version v (pre ++ (h ++ quoted t) ++ post)) = Some v /\
  rewrite_version v (pre ++ (h ++ quoted t) ++ post)
  = pre ++ (h ++ quoted v) ++ rewrite_rest v post /\
  ((forall j t', occurs (pre ++ (h ++ quoted t) ++ post) j t' -> j = length pre) ->
   rewrite_version v (pre ++ (h ++ quoted t) ++ post) = pre ++ (h ++ quoted v) ++ post).
Proof.
  intros Hl Hh Ht Hv Hfirst.
  assert (Hpre : rewrite_version v pre = pre).
  { unfold rewrite_version, re_sub. rewrite <- (app_nil_r pre) at 1.
    rewrite rewrite_copy.
    - rewrite sub_empty by apply UPDATE_empty. apply app_nil_r.
    - intros s1 a s2 h' t' rest -> E Hh' Ht'. rewrite app_nil_r in E.
      assert (Ho : occurs ((s1 ++ String a s2) ++ (h ++ quoted t) ++ post)
                          (length s1) t').
      { exists s1, (h' ++ quoted t'), (rest ++ (h ++ quoted t) ++ post).
        rewrite E, !app_assoc. repeat split. now apply assignment_intro. }
      apply Hfirst in Ho. rewrite length_app in Ho. simpl in Ho. lia. }
  assert (Hrw : rewrite_version v (pre ++ (h ++ quoted t) ++ post)
                = pre ++ (h ++ quoted v) ++ rewrite_rest v post).
  { rewrite rewrite_at_line by assumption. now rewrite Hpre. }
  split; [|split; [|split]].
  - apply find_version_first with (length pre); [|exact Hfirst].
    exists pre, (h ++ quoted t), post. repeat split. now apply assignment_intro.
  - rewrite Hrw. apply find_version_first with (length pre).
    + exists pre, (h ++ quoted v), (rewrite_rest v post). repeat split.
      now apply assignment_intro.
    + intros j t' Ho.
      destruct (Nat.le_gt_cases (length pre) j) as [|L]; [assumption|].
      destruct (head_starts_v _ Hh) as (r & Er).
      assert (Es : (h ++ quoted v) ++ rewrite_rest v post
                   = String "v" (r ++ quoted v ++ rewrite_rest v post)).
      { rewrite Er. simpl. now rewrite app_assoc. }
      rewrite Es in Ho.
      apply (Hfirst j t'). exact (occurs_prefix _ _ _ _ Ho L _).
  - exact Hrw.
  - intros Honly. rewrite Hrw. do 2 f_equal.
    unfold rewrite_rest. rewrite <- (app_nil_r post) at 1.
    rewrite rewrite_copy.
    + rewrite sub_empty by apply UPDATE_empty. apply app_nil_r.
    + intros s1 a s2 h' t' rest -> E Hh' Ht'. rewrite app_nil_r in E.
      assert (Ho : occurs (pre ++ (h ++ quoted t) ++ s1 ++ String a s2)
                          (length (pre ++ (h ++ quoted t) ++ s1)) t').
      { exists (pre ++ (h ++ quoted t) ++ s1), (h' ++ quoted t'), rest.
        rewrite E, !app_assoc. repeat split. now apply assignment_intro. }
      apply Honly in Ho. rewrite !length_app in Ho.
      pose proof (assignment_nonempty _ _ (assignment_intro _ _ Hh Ht)) as Hne.
      destruct (h ++ quoted t); [congruence|]. simpl in Ho. lia.
Qed.

Lemma C1_extract_update_round_trip_witness :
  find_version (sample_pre ++ (sample_head ++ quoted "0.2.0") ++ sample_post)
  = Some "0.2.0" /\
  find_version (rewrite_version "0.3.0"
                  (sample_pre ++ (sample_head ++ quoted "0.2.0") ++ sample_post))
  = Some "0.3.0" /\
  rewrite_version "0.3.0" (sample_pre ++ (sample_head ++ quoted "0.2.0") ++ sample_post)
  = sample_pre ++ (sample_head ++ quoted "0.3.0") ++ sample_post.
Proof.
  destruct (C1_extract_update_round_trip sample_pre sample_head "0.2.0" sample_post "0.3.0"
              sample_pre_ok sample_head_ok triple_020 triple_030) as (H1 & H2 & _ & H4).
  - refine (proj2 (search_occurs _ (length sample_pre)
                                  (version_ps " " " " "0" "2" "0") _)).
    vm_compute. reflexivity.
  - refine (conj H1 (conj H2 (H4 _))).
    refine (only_occurrence _ (length sample_pre) (version_ps " " " " "0" "2" "0")
              (sample_pre ++ "v") ("ersion = " ++ quoted "0.2.0" ++ sample_post) _ _ _ _);
      vm_compute; reflexivity.
Defined.

(** C9.  [get_current_version] returns the triple of the first
    occurrence of a version assignment (the word version, optional
    whitespace, an equals sign, optional whitespace, a quoted digit
    triple) wherever it starts: [occurs] asks neither for a line start
    nor for a particular table of the manifest.  [update_version]
    rewrites every assignment that begins a line, whatever comes before
    it.  So the two can disagree: in the last part extraction reads the
    rust-version line, which the update leaves alone, and the update
    rewrites the version line, which extraction does not read. *)
Theorem C9_first_match_and_every_line :
  (forall text t,
      find_version text = Some t <->
      exists i, occurs text i t /\ forall j t', occurs text j t' -> i <= j) /\
  (forall v pre h t post,
      is_valid_version v = true -> line_start pre -> assign_head h -> triple t ->
      rewrite_version v (pre ++ (h ++ quoted t) ++ post)
      = rewrite_version v pre ++ (h ++ quoted v) ++ rewrite_rest v post) /\
  (exists pre h t post v t1,
      line_start pre /\ assign_head h /\ triple t /\ t1 <> t /\
      find_version (pre ++ (h ++ quoted t) ++ post) = Some t1 /\
      rewrite_version v (pre ++ (h ++ quoted t) ++ post) = pre ++ (h ++ quoted v) ++ post /\
      find_version (rewrite_version v (pre ++ (h ++ quoted t) ++ post)) = Some t1).
Proof.
  split; [|split].
  - intros text t. split; [apply find_version_some|].
    intros (i & Ho & Hmin). exact (find_version_first _ _ _ Ho Hmin).
  - intros v pre h t post _ Hl Hh Ht. now apply rewrite_at_line.
  - exists msrv_pre, sample_head, "0.2.0", NL, "0.3.0", "1.70.0".
    split; [right; exists ("rust-version = " ++ quoted "1.70.0"); reflexivity|].
    split; [exact sample_head_ok|]. split; [exact triple_020|].
    split; [discriminate|]. repeat split; vm_compute; reflexivity.
Qed.

Lemma C9_first_match_and_every_line_witness :
  rewrite_version "0.3.0" (sample_pre ++ (sample_head ++ quoted "0.2.0") ++ sample_post)
  = rewrite_version "0.3.0" sample_pre ++ (sample_head ++ quoted "0.3.0")
    ++ rewrite_rest "0.3.0" sample_post.
Proof.
  apply (proj1 (proj2 C9_first_match_and_every_line)
           "0.3.0" sample_pre sample_head "0.2.0" sample_post).
  - vm_compute. reflexivity.
  - exact sample_pre_ok.
  - exact sample_head_ok.
  - exact triple_020.
Defined.

End VersionClaims.

(** ** Stripping ANSI escapes and centring *)

(** A colour escape: ESC, an opening bracket, parameter characters in
    the range [0-?] (digits and semicolons), and the letter m. *)
Definition sgr (params : string) : string := String esc ("[" ++ params ++ "m").

Module AnsiFacts.
Import Str StrFacts ClassFacts ReFacts PatternFacts.

Lemma det_ANSI ml : det ml ANSI_RE.
Proof.
  unfold ANSI_RE. cbn [det]. repeat split.
  - apply rejects_star; [|apply rejects_cls];
      intros a; apply between_disjoint; lia.
  - apply rejects_cls. intros a; apply between_disjoint; lia.
Qed.

Lemma ansi_pieces ml prev ps rest :
  pieces ml ANSI_RE prev ps rest <->
  exists b P I f,
    ps = [String esc ""; String b ""; P; I; String f ""] /\
    between 64 95 b = true /\ all (between 48 63) P = true /\
    all (between 32 47) I = true /\ between 64 126 f = true.
Proof.
  unfold ANSI_RE. split.
  - intros H.
    do 5 (destruct ps as [|? ps]; [simpl in H; tauto|]).
    destruct ps; [|simpl in H; tauto].
    simpl in H. destruct H as (-> & (b & -> & Hb) & HP & HI & (f & -> & Hf) & _).
    now exists b, s1, s2, f.
  - intros (b & P & I & f & -> & Hb & HP & HI & Hf).
    simpl. repeat split; eauto.
Qed.

(** A match starts with ESC, holds no other ESC, and ends with a
    character of [@-~]. *)
Lemma ansi_shape ml prev ps rest :
  pieces ml ANSI_RE prev ps rest ->
  (exists tail, cat ps = String esc tail /\ all (not_char esc) tail = true) /\
  (exists f, (forall prev', last_of prev' (cat ps) = Some f) /\ between 64 126 f = true).
Proof.
  intros H. apply ansi_pieces in H as (b & P & I & f & -> & Hb & HP & HI & Hf).
  assert (C : forall lo hi a, (27 < lo)%N -> between lo hi a = true ->
                              not_char esc a = true).
  { intros lo hi a L Ha. unfold not_char.
    rewrite (class_not_lit _ _ _ Ha); [reflexivity|]. apply between_false.
    left. exact L. }
  assert (A : forall lo hi w, (27 < lo)%N -> all (between lo hi) w = true ->
                              all (not_char esc) w = true).
  { intros lo hi w L. apply all_impl. intros a. now apply C. }
  split.
  - eexists. split; [simpl; reflexivity|]. simpl.
    rewrite !all_app. simpl.
    rewrite (C 64%N 95%N b eq_refl Hb), (A 48%N 63%N P eq_refl HP),
      (A 32%N 47%N I eq_refl HI), (C 64%N 126%N f eq_refl Hf). reflexivity.
  - exists f. split; [|exact Hf]. intros prev'. simpl.
    change (String b (P ++ I ++ String f "")) with (String b "" ++ P ++ I ++ String f "").
    now rewrite !last_of_app.
Qed.

Lemma ANSI_empty ml prev : m ml ANSI_RE prev "" = None.
Proof. reflexivity. Qed.

(** The pattern does not look at the character before the match. *)
Lemma ANSI_prev ml prev prev' s : m ml ANSI_RE prev s = m ml ANSI_RE prev' s.
Proof. reflexivity. Qed.

Lemma eol_free_ANSI : eol_free ANSI_RE.
Proof. exact I. Qed.

(** No match runs into text that starts with ESC. *)
Lemma safe_ANSI_esc ml r : safe ml ANSI_RE (String esc r).
Proof.
  apply safe_intro; [apply eol_free_ANSI | apply det_ANSI | apply ANSI_empty|].
  intros prev ps rest a s c u H Hc Hr. injection Hr as <- _.
  destruct (ansi_shape _ _ _ _ H) as [(tail & E & Hn) _].
  rewrite E in Hc. simpl in Hc. injection Hc as _ ->.
  rewrite all_app in Hn. simpl in Hn. rewrite andb_false_r in Hn. discriminate.
Qed.

(** No match runs into text made of characters outside [@-~]. *)
Lemma safe_ANSI_outside ml r :
  all (fun a => negb (between 64 126 a)) r = true -> safe ml ANSI_RE r.
Proof.
  intros Hr.
  apply safe_intro; [apply eol_free_ANSI | apply det_ANSI | apply ANSI_empty|].
  intros prev ps rest a s c u H Hc E.
  destruct (ansi_shape _ _ _ _ H) as [_ (f & Hl & Hf)].
  rewrite E, all_app in Hr. apply andb_true_iff in Hr as [Hu _].
  destruct (last_of_all _ (String c u) (last_of None (String a s))
              ltac:(discriminate) Hu) as (x & Hx & Hnx).
  specialize (Hl None). rewrite Hc, last_of_app, Hx in Hl.
  injection Hl as ->. rewrite Hf in Hnx. discriminate.
Qed.

Section Strip.

Variable repl : list string -> string.

Lemma ansi_sub_prev : forall s skip prev prev',
  sub_from false ANSI_RE repl skip prev s = sub_from false ANSI_RE repl skip prev' s.
Proof.
  induction s as [|a s IH]; intros [|n] prev prev'; reflexivity.
Qed.

(** Characters other than ESC in front of the text are copied. *)
Lemma ansi_sub_plain : forall w prev s,
  all (not_char esc) w = true ->
  sub_from false ANSI_RE repl 0 prev (w ++ s) = w ++ sub_from false ANSI_RE repl 0 prev s.
Proof.
  induction w as [|a w IH]; intros prev s Hw; [reflexivity|].
  simpl in Hw. apply andb_true_iff in Hw as [Ha Hw].
  unfold not_char in Ha. apply negb_true_iff in Ha.
  change (String a w ++ s) with (String a (w ++ s)).
  cbn [sub_from]. cbn [m ANSI_RE]. rewrite Ha.
  rewrite (ansi_sub_prev _ 0 (Some a) prev). now rewrite IH.
Qed.

End Strip.

Lemma spaces_plain n : all (not_char esc) (repeat " " n) = true.
Proof. now apply all_repeat. Qed.

Lemma spaces_outside n : all (fun a => negb (between 64 126 a)) (repeat " " n) = true.
Proof. now apply all_repeat. Qed.

(** Padding with spaces commutes with [strip_ansi]. *)
Lemma strip_ansi_pad n k text :
  strip_ansi (repeat " " n ++ text ++ repeat " " k)
  = repeat " " n ++ strip_ansi text ++ repeat " " k.
Proof.
  unfold strip_ansi, re_sub.
  rewrite ansi_sub_plain by apply spaces_plain. f_equal.
  rewrite sub_app by (apply safe_ANSI_outside, spaces_outside || lia). f_equal.
  rewrite <- (app_nil_r (repeat " " k)) at 1.
  rewrite ansi_sub_plain by apply spaces_plain.
  apply app_nil_r.
Qed.

(** A colour escape between two texts disappears, and the texts on
    its two sides are stripped separately. *)
Lemma strip_ansi_sgr a params b :
  all (between 48 63) params = true ->
  strip_ansi (a ++ sgr params ++ b) = strip_ansi a ++ strip_ansi b.
Proof.
  intros Hp. unfold strip_ansi, re_sub, sgr.
  change (String esc ("[" ++ params ++ "m") ++ b)
    with (String esc (("[" ++ params ++ "m") ++ b)).
  rewrite sub_app by (apply safe_ANSI_esc || lia). f_equal.
  assert (Hm : m false ANSI_RE (last_of None a)
                 (cat [String esc ""; "["; params; ""; "m"] ++ b)
               = Some ([String esc ""; "["; params; ""; "m"], b)).
  { apply m_complete; [apply det_ANSI|]. apply ansi_pieces.
    exists "["%char, params, "", "m"%char. repeat split; auto. }
  assert (Ec : cat [String esc ""; "["; params; ""; "m"] ++ b
               = String esc (("[" ++ params ++ "m") ++ b)).
  { simpl. now rewrite !app_assoc. }
  rewrite Ec in Hm. rewrite (sub_match _ _ _ _ _ _ _ Hm) by discriminate.
  simpl. apply ansi_sub_prev.
Qed.

End AnsiFacts.

(** ** Claims about centring *)

(** The widths of the wcwidth package on the code points 0..255: 0 for
    NUL, -1 for the other control characters, 1 for the rest.  Used to
    run [center_text] on concrete inputs. *)
Definition latin1_wcwidth (a : ascii) : Z :=
  if (code a =? 0)%N then 0%Z
  else if between 32 126 a || between 160 255 a then 1%Z
  else (-1)%Z.

Module WidthClaims.
Import Str StrFacts AnsiFacts.
Local Open Scope Z_scope.

Section WidthFacts.

Variable wcwidth : ascii -> Z.
Hypothesis wcwidth_space : wcwidth " " = 1.

Definition printable (s : string) : bool := all (fun a => 0 <=? wcwidth a) s.

Fixpoint total (s : string) : Z :=
  match s with
  | EmptyString => 0
  | String a s' => wcwidth a + total s'
  end.

Lemma wcswidth_from_printable : forall s acc,
  printable s = true -> wcswidth_from wcwidth acc s = acc + total s.
Proof.
  unfold printable.
  induction s as [|a s IH]; intros acc H; simpl in *; [lia|].
  apply andb_true_iff in H as [Ha Hs]. apply Z.leb_le in Ha.
  destruct (Z.ltb_spec (wcwidth a) 0); [lia|]. rewrite IH by assumption. lia.
Qed.

Lemma wcswidth_from_unprintable : forall s acc,
  printable s = false -> wcswidth_from wcwidth acc s = -1.
Proof.
  unfold printable.
  induction s as [|a s IH]; intros acc H; simpl in *; [discriminate|].
  destruct (Z.ltb_spec (wcwidth a) 0); [reflexivity|].
  apply IH. destruct (Z.leb_spec 0 (wcwidth a)); [exact H | lia].
Qed.

Lemma total_nonneg s : printable s = true -> 0 <= total s.
Proof.
  unfold printable.
  induction s as [|a s IH]; simpl; [lia|]. intros H.
  apply andb_true_iff in H as [Ha Hs]. apply Z.leb_le in Ha.
  specialize (IH Hs). lia.
Qed.

Lemma wcswidth_nonneg s :
  0 <= wcswidth wcwidth s -> printable s = true /\ wcswidth wcwidth s = total s.
Proof.
  unfold wcswidth. intros H. destruct (printable s) eqn:E.
  - split; [reflexivity|]. now rewrite wcswidth_from_printable.
  - rewrite wcswidth_from_unprintable in H by assumption. lia.
Qed.

Lemma total_app s t : total (s ++ t) = total s + total t.
Proof. induction s as [|a s IH]; simpl; [reflexivity | rewrite IH; lia]. Qed.

Lemma printable_spaces n : printable (repeat " " n) = true.
Proof. apply all_repeat. now rewrite wcwidth_space. Qed.

Lemma total_spaces n : total (repeat " " n) = Z.of_nat n.
Proof. induction n as [|n IH]; simpl total; [reflexivity|]. rewrite IH, wcwidth_space. lia. Qed.

(** The width of a padded text. *)
Lemma wcswidth_pad n k s :
  0 <= wcswidth wcwidth s ->
  wcswidth wcwidth (repeat " " n ++ s ++ repeat " " k)
  = Z.of_nat n + wcswidth wcwidth s + Z.of_nat k.
Proof.
  intros H. destruct (wcswidth_nonneg _ H) as [Hp ->].
  unfold wcswidth. rewrite wcswidth_from_printable.
  - rewrite !total_app, !total_spaces. lia.
  - unfold printable in *. now rewrite !all_app, Hp, !(printable_spaces).
Qed.

End WidthFacts.

(** C5, as stated, fails when the text is wider than the target: no
    space is added (a negative count of spaces is the empty string),
    and the result keeps its width 4 where the target is 1. *)
Lemma C5_counterexample :
  wcswidth latin1_wcwidth (strip_ansi "abcd") = 4 /\
  (1 - 4) / 2 = -2 /\
  center_text latin1_wcwidth "abcd" 1 = "abcd"%string /\
  wcswidth latin1_wcwidth (strip_ansi (center_text latin1_wcwidth "abcd" 1)) <> 1.
Proof. repeat split; vm_compute; congruence. Qed.

(** C5, amended.  Let [W] be the display width of the text once its
    ANSI escapes are removed, with [0 <= W <= T] (a space has width 1).
    Then [center_text] returns the text with [floor((T - W) / 2)]
    spaces in front and [T - floor((T - W) / 2) - W] spaces behind, and
    the display width of the result, escapes removed, is [T].  A colour
    escape inside the text adds nothing to [W]: [W] is the width of
    what is left of the two sides. *)
Theorem C5_center_text_width (wcwidth : ascii -> Z) (text : string) (T W : Z) :
  wcwidth " "%char = 1 ->
  W = wcswidth wcwidth (strip_ansi text) ->
  0 <= W <= T ->
  0 <= (T - W) / 2 /\ 0 <= T - (T - W) / 2 - W /\
  center_text wcwidth text T
  = (repeat " " (Z.to_nat ((T - W) / 2)) ++ text
     ++ repeat " " (Z.to_nat (T - (T - W) / 2 - W)))%string /\
  wcswidth wcwidth (strip_ansi (center_text wcwidth text T)) = T /\
  (forall a params b,
      all (between 48 63) params = true -> text = (a ++ sgr params ++ b)%string ->
      W = wcswidth wcwidth (strip_ansi a ++ strip_ansi b)).
Proof.
  intros Hsp HW Hr.
  assert (H1 : 0 <= (T - W) / 2) by (apply Z.div_pos; lia).
  assert (H2 : 0 <= T - (T - W) / 2 - W).
  { assert ((T - W) / 2 <= T - W) by (apply Z.div_le_upper_bound; lia). lia. }
  assert (Hc : center_text wcwidth text T
               = (repeat " " (Z.to_nat ((T - W) / 2)) ++ text
                  ++ repeat " " (Z.to_nat (T - (T - W) / 2 - W)))%string).
  { unfold center_text, spaces. now rewrite <- HW. }
  split; [exact H1|]. split; [exact H2|]. split; [exact Hc|]. split.
  - rewrite Hc, strip_ansi_pad, (wcswidth_pad _ Hsp) by (rewrite <- HW; lia).
    rewrite <- HW, !Z2Nat.id by assumption. lia.
  - intros a params b Hp ->. now rewrite strip_ansi_sgr in HW.
Qed.

Definition sample_title : string := COLOR_STAR ++ "Release Manager".

Lemma C5_center_text_width_witness :
  center_text latin1_wcwidth sample_title 80
  = (repeat " " (Z.to_nat ((80 - 15) / 2)) ++ sample_title
     ++ repeat " " (Z.to_nat (80 - (80 - 15) / 2 - 15)))%string /\
  wcswidth latin1_wcwidth (strip_ansi (center_text latin1_wcwidth sample_title 80)) = 80.
Proof.
  destruct (C5_center_text_width latin1_wcwidth sample_title 80 15)
    as (_ & _ & H3 & H4 & _).
  - reflexivity.
  - vm_compute. reflexivity.
  - lia.
  - exact (conj H3 H4).
Defined.

End WidthClaims.

(** ** Floating-point facts

    What the gradient needs of binary64 arithmetic, from the
    definitions of [SpecFloat]: rounding keeps a bounded value bounded
    and finite, and the quotient of two integers [j < s <= 2 ^ 53]
    rounds below 1. *)

Module FloatFacts.
Import Float.
Local Open Scope Z_scope.

Lemma fexp_eq e : fexp prec emax e = Z.max (e - 53) (-1074).
Proof. reflexivity. Qed.

Lemma digits_bounds p :
  2 ^ (Zpos (digits2_pos p) - 1) <= Zpos p < 2 ^ Zpos (digits2_pos p).
Proof.
  induction p as [p IH|p IH|]; simpl digits2_pos.
  - rewrite Pos2Z.inj_succ.
    replace (Z.succ (Zpos (digits2_pos p)) - 1) with (Z.succ (Zpos (digits2_pos p) - 1)) by lia.
    rewrite !Z.pow_succ_r by lia. lia.
  - rewrite Pos2Z.inj_succ.
    replace (Z.succ (Zpos (digits2_pos p)) - 1) with (Z.succ (Zpos (digits2_pos p) - 1)) by lia.
    rewrite !Z.pow_succ_r by lia. lia.
  - simpl. lia.
Qed.

Lemma digits_le m k : 0 <= m < 2 ^ k -> 0 <= k -> Zdigits2 m <= k.
Proof.
  intros [H0 H] Hk. destruct m as [|p|p]; simpl; [assumption| |lia].
  destruct (digits_bounds p) as [L _].
  destruct (Z.le_gt_cases (Zpos (digits2_pos p)) k) as [|G]; [assumption|exfalso].
  assert (2 ^ k <= 2 ^ (Zpos (digits2_pos p) - 1)) by (apply Z.pow_le_mono_r; lia).
  lia.
Qed.

Lemma shr_1_m r : 0 <= shr_m r -> shr_m (shr_1 r) = shr_m r / 2.
Proof.
  destruct r as [m b s]. simpl. intros H.
  destruct m as [|[p|p|]|p]; simpl; try lia; try reflexivity.
  - apply Z.div_unique with 1; lia.
  - apply Z.div_unique with 0; lia.
Qed.

Lemma shr_1_exact a :
  0 <= a ->
  shr_1 {| shr_m := 2 * a; shr_r := false; shr_s := false |}
  = {| shr_m := a; shr_r := false; shr_s := false |}.
Proof. destruct a; [reflexivity | reflexivity | lia]. Qed.

Lemma pow_xI n : 2 ^ Zpos n~1 = 2 * (2 ^ Zpos n * 2 ^ Zpos n).
Proof.
  replace (Zpos n~1) with (1 + (Zpos n + Zpos n)) by lia.
  rewrite !Z.pow_add_r by lia. reflexivity.
Qed.

Lemma pow_xO n : 2 ^ Zpos n~0 = 2 ^ Zpos n * 2 ^ Zpos n.
Proof.
  replace (Zpos n~0) with (Zpos n + Zpos n) by lia.
  now rewrite Z.pow_add_r by lia.
Qed.

Lemma pow2_pos k : 0 <= k -> 0 < 2 ^ k.
Proof. intros. apply Z.pow_pos_nonneg; lia. Qed.

Lemma iter_shr_m n : forall r,
  0 <= shr_m r -> shr_m (iter_pos shr_1 n r) = shr_m r / 2 ^ Zpos n.
Proof.
  assert (P : forall k : positive, 0 < 2 ^ Zpos k) by (intros; apply pow2_pos; lia).
  induction n as [n IH|n IH|]; intros r H; cbn [iter_pos].
  - assert (H1 : 0 <= shr_m (shr_1 r)).
    { rewrite shr_1_m by assumption. apply Z.div_pos; lia. }
    assert (H2 : 0 <= shr_m (iter_pos shr_1 n (shr_1 r))).
    { rewrite IH by assumption. apply Z.div_pos; [assumption | apply P]. }
    rewrite IH, IH, shr_1_m by assumption.
    rewrite pow_xI. pose proof (P n).
    rewrite !Z.div_div by lia. reflexivity.
  - assert (H2 : 0 <= shr_m (iter_pos shr_1 n r)).
    { rewrite IH by assumption. apply Z.div_pos; [assumption | apply P]. }
    rewrite IH, IH by assumption.
    rewrite pow_xO. pose proof (P n).
    rewrite !Z.div_div by lia. reflexivity.
  - now rewrite shr_1_m.
Qed.

Lemma iter_shr_exact n : forall k,
  0 <= k ->
  iter_pos shr_1 n {| shr_m := k * 2 ^ Zpos n; shr_r := false; shr_s := false |}
  = {| shr_m := k; shr_r := false; shr_s := false |}.
Proof.
  assert (P : forall k : positive, 0 < 2 ^ Zpos k) by (intros; apply pow2_pos; lia).
  induction n as [n IH|n IH|]; intros k H; cbn [iter_pos].
  - rewrite pow_xI.
    replace (k * (2 * (2 ^ Zpos n * 2 ^ Zpos n))) with (2 * (k * 2 ^ Zpos n * 2 ^ Zpos n)) by ring.
    pose proof (P n).
    rewrite shr_1_exact by nia. rewrite IH by nia. now apply IH.
  - rewrite pow_xO, Z.mul_assoc. pose proof (P n).
    rewrite IH by nia. now apply IH.
  - replace (k * 2 ^ 1) with (2 * k) by (rewrite Z.pow_1_r; ring).
    now apply shr_1_exact.
Qed.

Lemma shr_m_of_loc m l : shr_m (shr_record_of_loc m l) = m.
Proof. destruct l as [|[]]; reflexivity. Qed.

(** One shift to the exponent [fexp] asks for: the mantissa is divided,
    and an exact mantissa whose lost bits are zero stays exact. *)
Lemma shr_fexp_spec mx ex lx :
  0 <= mx ->
  exists r e,
    shr_fexp prec emax mx ex lx = (r, e) /\
    e = Z.max ex (fexp prec emax (Zdigits2 mx + ex)) /\
    shr_m r = mx / 2 ^ (e - ex) /\
    (lx = loc_Exact -> mx mod 2 ^ (e - ex) = 0 -> loc_of_shr_record r = loc_Exact).
Proof.
  intros H. unfold shr_fexp, shr.
  destruct (fexp prec emax (Zdigits2 mx + ex) - ex) as [|n|n] eqn:E.
  - exists (shr_record_of_loc mx lx), ex. split; [reflexivity|]. split; [lia|].
    rewrite Z.sub_diag, Z.pow_0_r, Z.div_1_r, shr_m_of_loc.
    split; [reflexivity|]. now intros ->.
  - exists (iter_pos shr_1 n (shr_record_of_loc mx lx)), (ex + Zpos n).
    split; [reflexivity|]. split; [lia|].
    replace (ex + Zpos n - ex) with (Zpos n) by lia.
    rewrite iter_shr_m by now rewrite shr_m_of_loc.
    rewrite shr_m_of_loc. split; [reflexivity|].
    intros -> Hmod. simpl shr_record_of_loc.
    rewrite (Z.div_mod mx (2 ^ Zpos n)) by (apply Z.pow_nonzero; lia).
    rewrite Hmod, Z.add_0_r, Z.mul_comm.
    rewrite iter_shr_exact; [reflexivity|].
    apply Z.div_pos; [assumption | apply pow2_pos; lia].
  - exists (shr_record_of_loc mx lx), ex. split; [reflexivity|]. split; [lia|].
    rewrite Z.sub_diag, Z.pow_0_r, Z.div_1_r, shr_m_of_loc.
    split; [reflexivity|]. now intros ->.
Qed.

Lemma round_nearest_even_spec m l :
  (round_nearest_even m l = m \/ round_nearest_even m l = m + 1) /\
  (l = loc_Exact -> round_nearest_even m l = m).
Proof.
  split; [|now intros ->].
  destruct l as [|[]]; simpl; auto. destruct (Z.even m); auto.
Qed.

(** The largest 53-bit mantissa at exponent [e] below [2 ^ K]. *)
Definition cap (K e : Z) : Z := (2 ^ 53 - 1) * 2 ^ (K - 53 - e).

Lemma cap_shift K e e' : e <= e' <= K - 53 -> cap K e = cap K e' * 2 ^ (e' - e).
Proof.
  intros H. unfold cap. rewrite <- Z.mul_assoc, <- Z.pow_add_r by lia.
  do 2 f_equal. lia.
Qed.

Lemma cap_lt_pow K e : e <= K - 53 -> 0 < cap K e < 2 ^ (K - e).
Proof.
  intros H. unfold cap.
  replace (K - e) with (53 + (K - 53 - e)) by lia.
  rewrite Z.pow_add_r by lia.
  pose proof (pow2_pos (K - 53 - e) ltac:(lia)).
  change (2 ^ 53) with 9007199254740992. nia.
Qed.

(** A float is below [2 ^ K] in absolute value, with an exponent in
    range. *)
Definition below (K : Z) (x : float) : Prop :=
  match x with
  | S754_zero _ => True
  | S754_finite _ m e => e <= K - 53 /\ Zpos m <= cap K e
  | _ => False
  end.

Lemma shift_bound K m e :
  0 <= m -> e <= K - 53 -> -1021 <= K -> m <= cap K e ->
  Z.max e (fexp prec emax (Zdigits2 m + e)) <= K - 53 /\
  m / 2 ^ (Z.max e (fexp prec emax (Zdigits2 m + e)) - e)
  <= cap K (Z.max e (fexp prec emax (Zdigits2 m + e))).
Proof.
  intros H0 He HK Hm.
  assert (D : Zdigits2 m <= K - e).
  { apply digits_le; [|lia]. pose proof (cap_lt_pow K e He). lia. }
  set (e' := Z.max e (fexp prec emax (Zdigits2 m + e))).
  assert (E : e <= e' <= K - 53) by (unfold e'; rewrite fexp_eq; lia).
  split; [lia|].
  apply Z.div_le_upper_bound; [apply pow2_pos; lia|].
  rewrite Z.mul_comm, <- cap_shift by assumption. assumption.
Qed.

Lemma round_below sx mx ex lx K :
  0 <= mx -> ex <= K - 53 -> -1021 <= K <= 1024 ->
  mx < cap K ex \/ (mx = cap K ex /\ lx = loc_Exact) ->
  below K (binary_round_aux prec emax sx mx ex lx).
Proof.
  intros H0 He HK Hm. unfold binary_round_aux.
  destruct (shr_fexp_spec mx ex lx H0) as (r1 & e1 & -> & E1 & M1 & X1).
  set (m1 := round_nearest_even (shr_m r1) (loc_of_shr_record r1)).
  assert (Hle : mx <= cap K ex) by lia.
  destruct (shift_bound K mx ex H0 He (proj1 HK) Hle) as [B1 B2].
  rewrite <- E1 in B1, B2. rewrite <- M1 in B2.
  assert (P1 : 0 <= shr_m r1).
  { rewrite M1. apply Z.div_pos; [assumption | apply pow2_pos; lia]. }
  assert (C1 : 0 <= m1 <= cap K e1).
  { destruct (round_nearest_even_spec (shr_m r1) (loc_of_shr_record r1)) as [Hr Hx].
    fold m1 in Hr, Hx.
    assert (Hs : cap K ex = cap K e1 * 2 ^ (e1 - ex)) by (apply cap_shift; lia).
    pose proof (pow2_pos (e1 - ex) ltac:(lia)) as Hp.
    destruct Hm as [Hlt | [Heq ->]].
    - assert (shr_m r1 < cap K e1); [|lia].
      rewrite M1. apply Z.div_lt_upper_bound; [assumption|]. rewrite Z.mul_comm. lia.
    - rewrite Hx; [lia|]. apply X1; [reflexivity|].
      rewrite Heq, Hs. apply Z.mod_mul. lia. }
  destruct (shr_fexp_spec m1 e1 loc_Exact (proj1 C1)) as (r2 & e2 & -> & E2 & M2 & _).
  destruct (shift_bound K m1 e1 (proj1 C1) B1 (proj1 HK) (proj2 C1)) as [B3 B4].
  rewrite <- E2 in B3, B4. rewrite <- M2 in B4.
  assert (P2 : 0 <= shr_m r2).
  { rewrite M2. apply Z.div_pos; [lia | apply pow2_pos; lia]. }
  destruct (shr_m r2) as [|m|m]; [exact I | | lia].
  replace (e2 <=? emax - prec) with true by (symmetry; apply Z.leb_le; unfold emax, prec; lia).
  split; assumption.
Qed.

Lemma below_mono K K' x : K <= K' -> below K x -> below K' x.
Proof.
  intros H. destruct x as [| | |s m e]; simpl; auto. intros [He Hm].
  split; [lia|]. unfold cap in *.
  assert (2 ^ (K - 53 - e) <= 2 ^ (K' - 53 - e)) by (apply Z.pow_le_mono_r; lia).
  nia.
Qed.

Lemma below_finite K x : below K x -> is_finite x = true.
Proof. destruct x; simpl; auto; contradiction. Qed.

Lemma round_below_exact sx mx ex K :
  0 <= mx <= cap K ex -> ex <= K - 53 -> -1021 <= K <= 1024 ->
  below K (binary_round_aux prec emax sx mx ex loc_Exact).
Proof.
  intros [H0 H] He HK. apply round_below; try assumption.
  apply Z.le_lteq in H as [H|H]; [now left | now right].
Qed.

Lemma iter_xO m d : Zpos (Pos.iter xO m d) = Zpos m * 2 ^ Zpos d.
Proof.
  induction d as [|d IH] using Pos.peano_ind.
  - simpl. lia.
  - rewrite Pos.iter_succ, Pos2Z.inj_succ, Z.pow_succ_r, Pos2Z.inj_xO, IH by lia. ring.
Qed.

(** [shl_align] lowers the exponent to the one asked for, when that
    is lower, and keeps the value. *)
Lemma shl_align_spec mx ex ex' :
  exists mz ez,
    shl_align mx ex ex' = (mz, ez) /\ ez = Z.min ex ex' /\
    Zpos mz = Zpos mx * 2 ^ (ex - ez).
Proof.
  unfold shl_align. destruct (ex' - ex) as [|d|d] eqn:E.
  - exists mx, ex. rewrite Z.sub_diag, Z.pow_0_r. repeat split; lia.
  - exists mx, ex. rewrite Z.sub_diag, Z.pow_0_r. repeat split; lia.
  - exists (Pos.iter xO mx d), ex'.
    replace (ex - ex') with (Zpos d) by lia.
    rewrite iter_xO. repeat split; lia.
Qed.

Lemma binary_round_below sx mx ex K :
  ex <= K - 53 -> -1021 <= K <= 1024 -> Zpos mx <= cap K ex ->
  below K (binary_round prec emax sx mx ex).
Proof.
  intros He HK Hm. unfold binary_round.
  destruct (shl_align_spec mx ex (fexp prec emax (Zpos (digits2_pos mx) + ex)))
    as (mz & ez & -> & Ez & Mz).
  apply round_below_exact; [|lia|assumption].
  split; [lia|]. rewrite Mz, (cap_shift K ez ex) by lia.
  apply Z.mul_le_mono_nonneg_r; [|assumption]. apply Z.lt_le_incl, pow2_pos. lia.
Qed.

Lemma binary_normalize_below a e sz K :
  e <= K - 53 -> -1021 <= K <= 1024 -> Z.abs a <= cap K e ->
  below K (binary_normalize prec emax a e sz).
Proof.
  intros He HK Ha. destruct a as [|p|p]; simpl binary_normalize.
  - exact I.
  - apply binary_round_below; auto.
  - apply binary_round_below; auto.
Qed.

(** [float(n)] returns for an integer of moderate size. *)
Lemma of_int_below n K :
  53 <= K <= 1024 -> Z.abs n <= cap K 0 ->
  exists x, of_int n = inr x /\ below K x.
Proof.
  intros HK Hn. unfold of_int.
  pose proof (binary_normalize_below n 0 false K ltac:(lia) ltac:(lia) Hn) as B.
  rewrite (below_finite _ _ B). eauto.
Qed.

Lemma cap_double K e : e <= K - 1 - 53 -> cap K e = 2 * cap (K - 1) e.
Proof.
  intros H. unfold cap.
  replace (K - 53 - e) with (Z.succ (K - 1 - 53 - e)) by lia.
  rewrite Z.pow_succ_r by lia. ring.
Qed.

Lemma mul_below K1 K2 x y :
  below K1 x -> below K2 y -> -1021 <= K1 + K2 <= 1024 ->
  below (K1 + K2) (mul x y).
Proof.
  intros Hx Hy HK.
  destruct x as [| | |sx mx ex], y as [| | |sy my ey]; simpl in *; try tauto.
  destruct Hx as [Ex Mx], Hy as [Ey My].
  apply round_below; [lia | lia | assumption | left].
  rewrite Pos2Z.inj_mul. unfold cap in *.
  replace (K1 + K2 - 53 - (ex + ey)) with (53 + ((K1 - 53 - ex) + (K2 - 53 - ey))) by lia.
  rewrite !Z.pow_add_r by lia.
  pose proof (pow2_pos (K1 - 53 - ex) ltac:(lia)) as P1.
  pose proof (pow2_pos (K2 - 53 - ey) ltac:(lia)) as P2.
  set (A := 2 ^ (K1 - 53 - ex)) in *. set (B := 2 ^ (K2 - 53 - ey)) in *.
  change (2 ^ 53) with 9007199254740992 in *.
  assert (Zpos mx * Zpos my <= (9007199254740992 - 1) * A * ((9007199254740992 - 1) * B)).
  { apply Z.mul_le_mono_nonneg; lia. }
  nia.
Qed.

Lemma aligned_bound K mx ex ez :
  ez <= ex <= K - 53 -> Zpos mx <= cap K ex ->
  exists mz, fst (shl_align mx ex ez) = mz /\ Zpos mz <= cap K ez.
Proof.
  intros He Hm.
  destruct (shl_align_spec mx ex ez) as (mz & e & -> & Ee & Mz).
  exists mz. split; [reflexivity|].
  replace e with ez in Mz by lia.
  rewrite Mz, (cap_shift K ez ex) by lia.
  apply Z.mul_le_mono_nonneg_r; [|assumption]. apply Z.lt_le_incl, pow2_pos. lia.
Qed.

Lemma add_below K x y :
  below (K - 1) x -> below (K - 1) y -> -1020 <= K <= 1024 ->
  below K (add x y).
Proof.
  intros Hx Hy HK.
  assert (Mx := below_mono (K - 1) K x ltac:(lia) Hx).
  assert (My := below_mono (K - 1) K y ltac:(lia) Hy).
  destruct x as [sx| | |sx mx ex], y as [sy| | |sy my ey]; simpl in Hx, Hy; try tauto;
    try assumption.
  - simpl. destruct sx, sy; exact I.
  - destruct Hx as [Ex Bx], Hy as [Ey By]. unfold add, SFadd.
    destruct (aligned_bound (K - 1) mx ex (Z.min ex ey) ltac:(lia) Bx) as (ax & -> & Ax).
    destruct (aligned_bound (K - 1) my ey (Z.min ex ey) ltac:(lia) By) as (ay & -> & Ay).
    apply binary_normalize_below; [lia | lia |].
    rewrite cap_double by lia. destruct sx, sy; unfold cond_Zopp; lia.
Qed.

Lemma sub_below K x y :
  below (K - 1) x -> below (K - 1) y -> -1020 <= K <= 1024 ->
  below K (sub x y).
Proof.
  intros Hx Hy HK.
  assert (Mx := below_mono (K - 1) K x ltac:(lia) Hx).
  assert (My := below_mono (K - 1) K y ltac:(lia) Hy).
  destruct x as [sx| | |sx mx ex], y as [sy| | |sy my ey]; simpl in Hx, Hy; try tauto;
    try assumption.
  - simpl. destruct sx, sy; exact I.
  - destruct Hx as [Ex Bx], Hy as [Ey By]. unfold sub, SFsub.
    destruct (aligned_bound (K - 1) mx ex (Z.min ex ey) ltac:(lia) Bx) as (ax & -> & Ax).
    destruct (aligned_bound (K - 1) my ey (Z.min ex ey) ltac:(lia) By) as (ay & -> & Ay).
    apply binary_normalize_below; [lia | lia |].
    rewrite cap_double by lia. destruct sx, sy; unfold cond_Zopp; lia.
Qed.

Lemma to_int_below K x : below K x -> exists n, to_int x = inr n.
Proof. destruct x; simpl; eauto; contradiction. Qed.

(** [1.0] *)
Definition one : float := S754_finite false 4503599627370496 (-52).

Lemma of_int_one : of_int 1 = inr one.
Proof. reflexivity. Qed.

Lemma below_lt_one t : below 0 t -> SFltb t one = true.
Proof.
  destruct t as [s| | |s m e]; simpl; try tauto.
  intros [He _]. unfold SFltb, SFcompare, one. destruct s; [reflexivity|].
  replace (e ?= -52) with Lt; [reflexivity|].
  symmetry. apply Z.compare_lt_iff. lia.
Qed.

Lemma new_location_zero n : new_location n 0 = loc_Exact.
Proof. unfold new_location. destruct (Z.even n); reflexivity. Qed.

Lemma div_core pj ps :
  Zpos (digits2_pos pj) <= Zpos (digits2_pos ps) <= 1000 ->
  SFdiv_core_binary prec emax (Zpos pj) 0 (Zpos ps) 0
  = (Zpos pj * 2 ^ (53 + Zpos (digits2_pos ps) - Zpos (digits2_pos pj)) / Zpos ps,
     Zpos (digits2_pos pj) - Zpos (digits2_pos ps) - 53,
     new_location (Zpos ps)
       ((Zpos pj * 2 ^ (53 + Zpos (digits2_pos ps) - Zpos (digits2_pos pj))) mod Zpos ps)).
Proof.
  intros D. unfold SFdiv_core_binary. cbn [Zdigits2].
  set (d1 := Zpos (digits2_pos pj)) in *. set (d2 := Zpos (digits2_pos ps)) in *.
  rewrite fexp_eq.
  replace (Z.min (Z.max (d1 + 0 - (d2 + 0) - 53) (-1074)) (0 - 0)) with (d1 - d2 - 53) by lia.
  replace (0 - 0 - (d1 - d2 - 53)) with (53 + d2 - d1) by lia.
  destruct (53 + d2 - d1) as [|s|s] eqn:Es; try lia.
  cbv beta iota zeta.
  rewrite Z.shiftl_mul_pow2 by lia.
  unfold Z.div, Z.modulo.
  destruct (Z.div_eucl (Zpos pj * 2 ^ Zpos s) (Zpos ps)). reflexivity.
Qed.

(** The quotient of two integers [0 <= j < sps <= 2 ^ 53] is a float
    below 1: the exact quotient is at most [1 - 2 ^ -53], which is a
    float, so rounding cannot reach 1. *)
Lemma true_div_below_one j sps :
  0 <= j < sps -> sps <= 2 ^ 53 ->
  exists t, true_div j sps = inr t /\ below 0 t.
Proof.
  intros Hj Hs. unfold true_div.
  destruct (Z.eqb_spec sps 0) as [|_]; [lia|].
  assert (B : below 0 (SFdiv prec emax (unrounded j) (unrounded sps))).
  { destruct sps as [|ps|ps]; try lia. destruct j as [|pj|pj]; try lia; [exact I|].
    unfold unrounded, SFdiv.
    destruct (digits_bounds pj) as [Lj Uj]. destruct (digits_bounds ps) as [Ls Us].
    assert (D2 : Zpos (digits2_pos ps) <= 54).
    { apply (digits_le (Zpos ps)); [|lia].
      change (2 ^ 54) with (2 * 2 ^ 53). lia. }
    assert (D1 : Zpos (digits2_pos pj) <= Zpos (digits2_pos ps)).
    { apply (digits_le (Zpos pj)); lia. }
    rewrite div_core by lia. simpl xorb.
    set (d1 := Zpos (digits2_pos pj)) in *. set (d2 := Zpos (digits2_pos ps)) in *.
    pose proof (pow2_pos (d2 - d1) ltac:(lia)) as PD.
    assert (Hp : 2 ^ (53 + d2 - d1) = 2 ^ 53 * 2 ^ (d2 - d1)).
    { rewrite <- Z.pow_add_r by lia. f_equal. lia. }
    assert (Hc : cap 0 (d1 - d2 - 53) = (2 ^ 53 - 1) * 2 ^ (d2 - d1)).
    { unfold cap. do 2 f_equal. lia. }
    rewrite Hp.
    change (2 ^ 53) with 9007199254740992 in *.
    set (D := 2 ^ (d2 - d1)) in *.
    assert (Hq : Zpos pj * (9007199254740992 * D) <= Zpos ps * cap 0 (d1 - d2 - 53)).
    { rewrite Hc. nia. }
    pose proof (Z.div_mod (Zpos pj * (9007199254740992 * D)) (Zpos ps) ltac:(lia)) as Hdm.
    pose proof (Z.mod_pos_bound (Zpos pj * (9007199254740992 * D)) (Zpos ps) ltac:(lia)) as Hr.
    set (q := Zpos pj * (9007199254740992 * D) / Zpos ps) in *.
    set (r := (Zpos pj * (9007199254740992 * D)) mod Zpos ps) in *.
    assert (Hq0 : 0 <= q) by (apply Z.div_pos; lia).
    assert (Hqc : q <= cap 0 (d1 - d2 - 53)).
    { apply Z.div_le_upper_bound; lia. }
    apply round_below; [assumption | lia | lia |].
    apply Z.le_lteq in Hqc as [Hqc|Hqc]; [now left | right].
    split; [assumption|].
    assert (Hr0 : r = 0) by nia. rewrite Hr0. apply new_location_zero. }
  unfold div_int. rewrite (below_finite _ _ B). eauto.
Qed.

End FloatFacts.

(** ** Claims about the gradient *)

Module GradientClaims.
Local Open Scope Z_scope.

Lemma try_map_Forall2 {A B : Type} (f : A -> exn + B) : forall xs ys,
  try_map f xs = inr ys -> Forall2 (fun x y => f x = inr y) xs ys.
Proof.
  induction xs as [|x xs IH]; intros ys H; simpl in H.
  - injection H as <-. constructor.
  - destruct (f x) as [e|y] eqn:Ex; simpl in H; [discriminate|].
    destruct (try_map f xs) as [e|ys'] eqn:Em; simpl in H; [discriminate|].
    injection H as <-. constructor; auto.
Qed.

Lemma try_map_total {A B : Type} (f : A -> exn + B) : forall xs,
  (forall x, In x xs -> exists y, f x = inr y) -> exists ys, try_map f xs = inr ys.
Proof.
  induction xs as [|x xs IH]; intros H; simpl.
  - now exists [].
  - destruct (H x (or_introl eq_refl)) as (y & ->).
    destruct IH as (ys & ->); [intros; apply H; now right|].
    simpl. now exists (y :: ys).
Qed.

Lemma Forall2_nth_error {A B : Type} (R : A -> B -> Prop) : forall xs ys,
  Forall2 R xs ys -> forall i y, nth_error ys i = Some y ->
  exists x, nth_error xs i = Some x /\ R x y.
Proof.
  induction 1 as [|x y xs ys Hxy _ IH]; intros [|i] b Hb; simpl in *; try discriminate.
  - injection Hb as <-. now exists x.
  - now apply IH.
Qed.

Lemma length_range n : List.length (range n) = Z.to_nat n.
Proof. unfold range. now rewrite length_map, length_seq. Qed.

Lemma In_range n j : In j (range n) <-> 0 <= j < n.
Proof.
  unfold range. rewrite in_map_iff. split.
  - intros (k & <- & Hk). apply in_seq in Hk. lia.
  - intros H. exists (Z.to_nat j). split; [lia|]. apply in_seq. lia.
Qed.

Lemma nth_error_range n i j :
  nth_error (range n) i = Some j -> j = Z.of_nat i /\ 0 <= j < n.
Proof.
  intros H. pose proof (nth_error_In _ _ H) as Hin. apply In_range in Hin.
  split; [|assumption]. unfold range in H.
  rewrite nth_error_map in H.
  destruct (nth_error (seq 0 (Z.to_nat n)) i) as [k|] eqn:E; [|discriminate].
  injection H as <-.
  assert (Hi : (i < List.length (seq 0 (Z.to_nat n)))%nat).
  { apply nth_error_Some. congruence. }
  rewrite length_seq in Hi.
  rewrite (nth_error_nth' _ 0%nat) in E by (rewrite length_seq; exact Hi).
  rewrite seq_nth in E by exact Hi. injection E as <-. reflexivity.
Qed.

Lemma length_concat_uniform {A : Type} (L : nat) : forall blocks : list (list A),
  Forall (fun b => List.length b = L) blocks ->
  List.length (List.concat blocks) = (List.length blocks * L)%nat.
Proof.
  induction 1 as [|b blocks Hb _ IH]; simpl; [reflexivity|].
  now rewrite length_app, Hb, IH.
Qed.

(** The steps of segment [i] of the gradient. *)
Definition segment_step (colors : list color) (steps_per_segment i j : Z) : exn + string :=
  gradient_step (color_at colors i) (color_at colors (i + 1)) steps_per_segment j.

(** The loop body after the division: the code emitted at the
    parameter [t]. *)
Definition sample (start_color end_color : color) (t : Float.float) : exn + string :=
  let '(r0, g0, b0) := start_color in
  let '(r1, g1, b1) := end_color in
  let? r := blend r0 r1 t in
  let? g := blend g0 g1 t in
  let? b := blend b0 b1 t in
  inr (color_code r g b).

Lemma gradient_step_sample c0 c1 sps j :
  gradient_step c0 c1 sps j = let? t := true_div j sps in sample c0 c1 t.
Proof. destruct c0 as [[? ?] ?], c1 as [[? ?] ?]. reflexivity. Qed.

(** C10, as stated, fails in its last part: the final colour of a
    segment can be emitted.  With the colours (1,0,0) and (0,0,0) and
    two steps, the second code, computed at t = 0.5, is the code of
    (0,0,0), the final colour of the only segment.  In the banner the
    final colour of segment 0, (75,0,130), is the code at index 13,
    the first code of segment 1.  A channel too large for a float
    makes the function raise instead of returning codes.  And with
    2 ^ 54 steps in a segment the parameter of the last step,
    (2 ^ 54 - 1) / 2 ^ 54, rounds to 1.0. *)
Lemma C10_counterexample :
  generate_gradient [(1, 0, 0); (0, 0, 0)] 2 = inr [color_code 1 0 0; color_code 0 0 0] /\
  color_at GRADIENT_COLORS (0 + 1) = (75, 0, 130) /\
  (exists codes, cosmic_gradient = inr codes /\
                 nth 13 codes ""%string = color_code 75 0 130) /\
  generate_gradient [(2 ^ 1024, 0, 0); (0, 0, 0)] 1 = inl OverflowError /\
  true_div (2 ^ 54 - 1) (2 ^ 54) = inr FloatFacts.one.
Proof.
  split; [vm_compute; reflexivity|]. split; [reflexivity|]. split; [|split].
  - destruct cosmic_gradient as [e|codes] eqn:E; [vm_compute in E; discriminate|].
    exists codes. split; [reflexivity|].
    vm_compute in E. injection E as <-. vm_compute. reflexivity.
  - vm_compute. reflexivity.
  - vm_compute. reflexivity.
Qed.

Definition segments_of (colors : list color) : Z := Z.of_nat (List.length colors) - 1.

Definition steps_per_segment_of (colors : list color) (s : Z) : Z :=
  Z.max 1 (s / segments_of colors).

(** Channel values of moderate size: every RGB value, and far more. *)
Definition channel_ok (c : Z) : bool := Z.abs c <=? 2 ^ 1000.

Definition color_ok (c : color) : bool :=
  let '(r, g, b) := c in channel_ok r && channel_ok g && channel_ok b.

Definition colors_ok (colors : list color) : bool := forallb color_ok colors.

Lemma color_at_ok colors i : colors_ok colors = true -> color_ok (color_at colors i) = true.
Proof.
  intros H. unfold color_at.
  destruct (nth_in_or_default (Z.to_nat i) colors (0, 0, 0)) as [Hin| ->].
  - unfold colors_ok in H. rewrite forallb_forall in H. now apply H.
  - reflexivity.
Qed.

Lemma of_int_channel c :
  channel_ok c = true -> exists x, Float.of_int c = inr x /\ FloatFacts.below 1001 x.
Proof.
  intros H. apply Z.leb_le in H. apply FloatFacts.of_int_below; [lia|].
  apply Z.le_trans with (2 ^ 1000); [assumption|].
  unfold FloatFacts.cap. vm_compute. discriminate.
Qed.

(** One channel of a sample returns: no operation overflows on
    channels of moderate size and a parameter below 1. *)
Lemma blend_returns a b t :
  channel_ok a = true -> channel_ok b = true -> FloatFacts.below 0 t ->
  exists n, blend a b t = inr n.
Proof.
  intros Ha Hb Ht. unfold blend. rewrite FloatFacts.of_int_one.
  destruct (of_int_channel a Ha) as (x & -> & Bx).
  destruct (of_int_channel b Hb) as (y & -> & By).
  cbn [try_bind].
  apply FloatFacts.to_int_below with 1004.
  apply FloatFacts.add_below; [| |lia].
  - apply (FloatFacts.mul_below 1001 2); [assumption| |lia].
    apply FloatFacts.sub_below; [| |lia].
    + split; [lia|]. vm_compute. discriminate.
    + now apply FloatFacts.below_mono with 0.
  - apply FloatFacts.below_mono with (1001 + 0); [lia|].
    apply FloatFacts.mul_below; [assumption | assumption | lia].
Qed.

Lemma sample_returns c0 c1 t :
  color_ok c0 = true -> color_ok c1 = true -> FloatFacts.below 0 t ->
  exists code, sample c0 c1 t = inr code.
Proof.
  destruct c0 as [[r0 g0] b0], c1 as [[r1 g1] b1]. unfold color_ok, sample.
  intros H0 H1 Ht.
  apply andb_prop in H0 as [H0 Hb0]. apply andb_prop in H0 as [Hr0 Hg0].
  apply andb_prop in H1 as [H1 Hb1]. apply andb_prop in H1 as [Hr1 Hg1].
  destruct (blend_returns r0 r1 t Hr0 Hr1 Ht) as (r & ->).
  destruct (blend_returns g0 g1 t Hg0 Hg1 Ht) as (g & ->).
  destruct (blend_returns b0 b1 t Hb0 Hb1 Ht) as (b & ->).
  cbn [try_bind]. eauto.
Qed.

Lemma steps_per_segment_bound colors s :
  2 <= Z.of_nat (List.length colors) -> 1 <= s <= 2 ^ 53 ->
  1 <= steps_per_segment_of colors s <= 2 ^ 53.
Proof.
  intros Hn Hs. unfold steps_per_segment_of, segments_of.
  assert (s / (Z.of_nat (List.length colors) - 1) <= s).
  { apply Z.div_le_upper_bound; [lia|]. nia. }
  lia.
Qed.

(** C10, amended.  For a colour list of length [n >= 2] whose channel
    values are at most [2 ^ 1000] in absolute value (every RGB value is)
    and a step count [1 <= s <= 2 ^ 53], [generate_gradient] returns:
    no floating-point operation of the interpolation raises.  It
    returns exactly [(n - 1) * max(1, s div (n - 1))] codes, segment
    after segment.  The code at place [j] of segment [i] is the sample
    of the colours [i] and [i + 1] at the parameter
    [t = j / steps_per_segment], with [0 <= j < steps_per_segment], and
    this float is below 1: the end point [t = 1] of a segment is never
    sampled.  (The final colour itself can still be emitted.)  With the
    7 banner colours and 80 steps the result has 78 codes, fewer than
    80. *)
Theorem C10_gradient_length (colors : list color) (s : Z) :
  2 <= Z.of_nat (List.length colors) -> 1 <= s <= 2 ^ 53 -> colors_ok colors = true ->
  (exists blocks,
      generate_gradient colors s = inr (List.concat blocks) /\
      Z.of_nat (List.length (List.concat blocks))
      = (Z.of_nat (List.length colors) - 1)
        * Z.max 1 (s / (Z.of_nat (List.length colors) - 1)) /\
      Z.of_nat (List.length blocks) = Z.of_nat (List.length colors) - 1 /\
      forall i block j code,
        nth_error blocks i = Some block -> nth_error block j = Some code ->
        0 <= Z.of_nat j < steps_per_segment_of colors s /\
        exists t,
          true_div (Z.of_nat j) (steps_per_segment_of colors s) = inr t /\
          SFltb t FloatFacts.one = true /\
          sample (color_at colors (Z.of_nat i)) (color_at colors (Z.of_nat i + 1)) t
          = inr code) /\
  (exists codes, cosmic_gradient = inr codes /\ List.length codes = 78%nat /\
                 (7 - 1) * Z.max 1 (80 / (7 - 1)) = 78 /\ 78 < banner_width).
Proof.
  intros Hn Hs Hc. split.
  - pose proof (steps_per_segment_bound colors s Hn Hs) as Hsps.
    assert (Hstep : forall i j, 0 <= j < steps_per_segment_of colors s ->
              exists t code,
                true_div j (steps_per_segment_of colors s) = inr t /\
                FloatFacts.below 0 t /\
                sample (color_at colors i) (color_at colors (i + 1)) t = inr code).
    { intros i j Hj.
      destruct (FloatFacts.true_div_below_one j (steps_per_segment_of colors s) Hj
                  (proj2 Hsps)) as (t & Et & Bt).
      destruct (sample_returns (color_at colors i) (color_at colors (i + 1)) t
                  (color_at_ok colors i Hc) (color_at_ok colors (i + 1) Hc) Bt)
        as (code & Ec).
      eauto. }
    unfold generate_gradient, steps_per_segment_of, segments_of in *.
    set (n := Z.of_nat (List.length colors)) in *.
    destruct (Z.eqb_spec (n - 1) 0) as [|_]; [lia|].
    set (sps := Z.max 1 (s / (n - 1))) in *.
    set (body := fun i : Z =>
           try_map (gradient_step (color_at colors i) (color_at colors (i + 1)) sps)
                   (range sps)).
    destruct (try_map_total body (range (n - 1))) as (blocks & Hb).
    { intros i Hi. apply try_map_total.
      intros j Hj. apply In_range in Hj.
      destruct (Hstep i j Hj) as (t & code & Et & _ & Ec).
      exists code. rewrite gradient_step_sample, Et. exact Ec. }
    rewrite Hb. simpl. exists blocks. split; [reflexivity|].
    pose proof (try_map_Forall2 _ _ _ Hb) as F.
    assert (Lb : List.length blocks = Z.to_nat (n - 1)).
    { rewrite <- (Forall2_length F). apply length_range. }
    assert (Ls : Forall (fun b => List.length b = Z.to_nat sps) blocks).
    { apply Forall_forall. intros b Hin. apply In_nth_error in Hin as (i & Hi).
      destruct (Forall2_nth_error _ _ _ F _ _ Hi) as (x & _ & Hx).
      apply try_map_Forall2 in Hx. rewrite <- (Forall2_length Hx). apply length_range. }
    split; [|split].
    + rewrite (length_concat_uniform _ _ Ls), Lb. nia.
    + rewrite Lb. lia.
    + intros i block j code Hi Hj.
      destruct (Forall2_nth_error _ _ _ F _ _ Hi) as (x & Hx & Hbody).
      apply nth_error_range in Hx as [-> _].
      apply try_map_Forall2 in Hbody.
      destruct (Forall2_nth_error _ _ _ Hbody _ _ Hj) as (y & Hy & Hcode).
      apply nth_error_range in Hy as [-> Hr]. split; [exact Hr|].
      destruct (Hstep (Z.of_nat i) (Z.of_nat j) Hr) as (t & code' & Et & Bt & Ec).
      exists t. split; [exact Et|]. split; [now apply FloatFacts.below_lt_one|].
      rewrite gradient_step_sample, Et in Hcode. exact Hcode.
  - destruct cosmic_gradient as [e|codes] eqn:E; [vm_compute in E; discriminate|].
    exists codes. split; [reflexivity|].
    split; [vm_compute in E; injection E as <-; reflexivity|].
    split; reflexivity.
Qed.

Lemma C10_gradient_length_witness :
  exists blocks,
    generate_gradient GRADIENT_COLORS 80 = inr (List.concat blocks) /\
    Z.of_nat (List.length (List.concat blocks))
    = (Z.of_nat (List.length GRADIENT_COLORS) - 1)
      * Z.max 1 (80 / (Z.of_nat (List.length GRADIENT_COLORS) - 1)).
Proof.
  destruct (C10_gradient_length GRADIENT_COLORS 80) as [(blocks & H1 & H2 & _) _].
  - vm_compute. discriminate.
  - split; vm_compute; discriminate.
  - reflexivity.
  - exists blocks. exact (conj H1 H2).
Defined.

End GradientClaims.

(** ** Claims about the release process *)

Definition REV_PARSE : list string := ["git"; "rev-parse"; "--abbrev-ref"; "HEAD"].
Definition DIFF_INDEX : list string := ["git"; "diff-index"; "--quiet"; "HEAD"; "--"].
Definition CARGO_CHECK : list string := ["cargo"; "check"].
Definition CARGO_TEST : list string := ["cargo"; "test"].
Definition GIT_STATUS : list string := ["git"; "status"; "--porcelain"].
Definition GIT_ADD : list string := ["git"; "add"; "Cargo.*"].
Definition GIT_COMMIT (v : string) : list string := ["git"; "commit"; "-m"; commit_message v].
Definition GIT_PUSH : list string := ["git"; "push"].
Definition GIT_TAG (v : string) : list string := ["git"; "tag"; tag_name v].
Definition GIT_PUSH_TAGS : list string := ["git"; "push"; "--tags"].

(** The checks made before the operator is asked for a version: both
    tools installed, the branch is main, the work tree is clean. *)
Definition preconditions_hold (env : Env) : bool :=
  which env "git" && which env "cargo" &&
  (returncode env REV_PARSE =? 0)%Z &&
  String.eqb (strip (stdout_of env REV_PARSE)) "main" &&
  (returncode env DIFF_INDEX =? 0)%Z.

(** The five git commands of [commit_and_push] all succeed. *)
Definition git_ok (env : Env) (v : string) : bool :=
  (returncode env GIT_ADD =? 0)%Z && (returncode env (GIT_COMMIT v) =? 0)%Z &&
  (returncode env GIT_PUSH =? 0)%Z && (returncode env (GIT_TAG v) =? 0)%Z &&
  (returncode env GIT_PUSH_TAGS =? 0)%Z.

(** The steps after [update_version]: the checks pass, the operator
    answers y or Y, the git commands succeed. *)
Definition later_steps_ok (env : Env) (v : string) (rest : list string) : bool :=
  match rest with
  | answer :: _ =>
      (returncode env CARGO_CHECK =? 0)%Z && (returncode env CARGO_TEST =? 0)%Z &&
      String.eqb (lower answer) "y" && git_ok env v
  | [] => false
  end.

(** Every step of the release succeeds. *)
Definition release_succeeds (env : Env) (cargo_toml : option string) (lines : list string)
  : bool :=
  preconditions_hold env &&
  match cargo_toml with
  | Some content =>
      match find_version content with
      | Some _ =>
          match lines with
          | v :: rest => is_valid_version v && later_steps_ok env v rest
          | [] => false
          end
      | None => false
      end
  | None => false
  end.

(** The texts written to Cargo.toml, in order. *)
Fixpoint writes (tr : list event) : list string :=
  match tr with
  | [] => []
  | WriteManifest content :: tr' => content :: writes tr'
  | _ :: tr' => writes tr'
  end.

(** The events that involve the operator or Cargo.toml. *)
Definition asks_or_touches (e : event) : bool :=
  match e with
  | Ask _ | ReadManifest | WriteManifest _ => true
  | _ => false
  end.

Definition version_prompt (current_version : string) : string :=
  COLOR_VERSION_PROMPT ++ "Current version is " ++ current_version
  ++ ". What should the new version be? " ++ COLOR_RESET.

Definition confirm_prompt : string :=
  COLOR_VERSION_PROMPT ++ "Do you want to proceed with these changes? (y/N): "
  ++ COLOR_RESET.

Definition INVALID_VERSION : event :=
  Print Error "Invalid version format. Please use semantic versioning (e.g., 1.2.3).".

Definition UNCOMMITTED : event :=
  Print Error "You have uncommitted changes. Please commit or stash them before releasing.".

(** What the script does up to and including the version prompt. *)
Definition up_to_prompt (current_version : string) : list event :=
  [Logo; Print Step "Starting release process for git-iris";
   Run REV_PARSE; Run DIFF_INDEX; ReadManifest; Ask (version_prompt current_version)].

(** Sample environments: everything succeeds; the work tree is dirty;
    the tests fail. *)
Definition ok_env : Env :=
  {| which := fun _ => true;
     returncode := fun _ => 0%Z;
     stdout_of := fun _ => "main" ++ NL |}.

Definition dirty_env : Env :=
  {| which := fun _ => true;
     returncode := fun argv =>
       if list_eq_dec string_dec argv DIFF_INDEX then 1%Z else 0%Z;
     stdout_of := fun _ => "main" ++ NL |}.


Module ProcessClaims.
Import Str StrFacts PatternFacts VersionFacts VersionClaims.
Local Open Scope Z_scope.

Local Opaque find_version is_valid_version rewrite_version strip lower String.eqb.

(** The condition the evaluation of a run is waiting for. *)
Ltac stuck t :=
  lazymatch t with
  | (if ?c then _ else _) _ => stuck c
  | (match ?x with Some _ => _ | None => _ end) _ => stuck x
  | (match ?x with nil => _ | cons _ _ => _ end) _ => stuck x
  | (if ?c then _ else _) => stuck c
  | match ?x with Some _ => _ | None => _ end => stuck x
  | match ?x with nil => _ | cons _ _ => _ end => stuck x
  | match ?x with pair _ _ => _ end => stuck x
  | match ?x with Ret _ => _ | Exit _ => _ | Raise _ => _ end => stuck x
  | fst ?x => stuck x
  | snd ?x => stuck x
  | exit_status ?x => stuck x
  | manifest ?x => stuck x
  | trace ?x => stuck x
  | writes ?x => stuck x
  | stdin ?x => stuck x
  | existsb _ ?x => stuck x
  | negb ?x => stuck x
  | andb ?x _ => stuck x
  | _ => t
  end.

(** Evaluate the run up to the next condition and split on it. *)
Ltac step :=
  cbn;
  lazymatch goal with
  | |- ?l = _ =>
      let c := stuck l in
      tryif constr_eq c l then fail else destruct c eqn:?
  end.

Ltac unfold_run :=
  unfold run, main, start, release_succeeds, preconditions_hold, later_steps_ok, git_ok,
    up_to_prompt, version_prompt, confirm_prompt, INVALID_VERSION, UNCOMMITTED,
    REV_PARSE, DIFF_INDEX, CARGO_CHECK, CARGO_TEST, GIT_STATUS, GIT_ADD, GIT_COMMIT,
    GIT_PUSH, GIT_TAG, GIT_PUSH_TAGS, commit_message, tag_name in *;
  unfold check_tool_installed, check_branch, check_uncommitted_changes,
    get_current_version, update_version, run_checks, show_changes, commit_and_push,
    subprocess_run, check_output, print_logo, print_step, print_error, print_success,
    print_warning, input, read_manifest, write_manifest, try_except, for_each,
    sys_exit, raise, tell, bind, ret.

(** Use the equations collected by [step] in the hypothesis [H]. *)
Ltac use_in H :=
  repeat match goal with
         | E : ?c = _ |- _ =>
             match type of H with context [c] => rewrite E in H end
         end;
  cbn in H.

(** C6.  The exit status of the process is 0 when every step succeeds
    and 1 otherwise: a tool missing, the branch query failing or
    naming another branch, uncommitted changes, no Cargo.toml or no
    version found in it, no input, an invalid version, a failing cargo
    check or cargo test, an answer other than y, or a failing git add,
    commit, push, tag or push of the tags. *)
Theorem C6_exit_status env cargo_toml lines :
  exit_status (fst (run env cargo_toml lines))
  = if release_succeeds env cargo_toml lines then 0 else 1.
Proof.
  unfold_run. repeat step; cbn; try reflexivity.
  all: match goal with l : list string |- _ => destruct l; reflexivity end.
Qed.

(** Split a conjunction of boolean conditions into its parts. *)
Ltac split_andb H :=
  repeat match type of H with
         | andb _ _ = true =>
             let H' := fresh H in apply andb_true_iff in H as [H H']
         end.

Ltac close_leaf :=
  cbn in *;
  repeat match goal with
         | H : Some _ = Some _ |- _ => injection H as H; try subst
         end;
  first [reflexivity | congruence].

(** C3.  When the checks before the prompt pass and the version the
    operator types is rejected by [is_valid_version], the run ends
    right after the prompt with exit status 1: the last event is the
    error message, Cargo.toml holds what it held, nothing was written
    and no git add, commit, push or tag was run. *)
Theorem C3_invalid_version_stops env content cur v rest :
  preconditions_hold env = true ->
  find_version content = Some cur ->
  is_valid_version v = false ->
  run env (Some content) (v :: rest)
  = (Exit 1, {| manifest := Some content; stdin := rest;
                trace := up_to_prompt cur ++ [INVALID_VERSION] |}) /\
  writes (up_to_prompt cur ++ [INVALID_VERSION]) = [] /\
  (forall argv, In (Run argv) (up_to_prompt cur ++ [INVALID_VERSION]) ->
                argv = REV_PARSE \/ argv = DIFF_INDEX).
Proof.
  intros Hp Hf Hv. split; [|split].
  - unfold_run. split_andb Hp. repeat step; close_leaf.
  - reflexivity.
  - intros argv H. simpl in H.
    repeat (destruct H as [H|H]; [first [discriminate | injection H as <-; auto]|]).
    contradiction.
Qed.

Lemma C3_invalid_version_stops_witness :
  run ok_env (Some (sample_pre ++ (sample_head ++ quoted "0.2.0") ++ sample_post)) ["1.3"]
  = (Exit 1, {| manifest := Some (sample_pre ++ (sample_head ++ quoted "0.2.0") ++ sample_post);
                stdin := [];
                trace := up_to_prompt "0.2.0" ++ [INVALID_VERSION] |}).
Proof.
  refine (proj1 (C3_invalid_version_stops ok_env _ "0.2.0" "1.3" [] _ _ _));
    vm_compute; reflexivity.
Defined.

(** C4.  When the dirty-tree command returns a status other than 0,
    the exit status is 1, standard input is untouched (the operator is
    not asked for a version, so nothing is validated), and Cargo.toml
    is neither read nor written: the run never gets to
    [get_current_version] or [update_version].  When moreover the
    tools are installed and the branch is main, the run ends right
    after that command, with its error message. *)
Theorem C4_uncommitted_changes_stop env cargo_toml lines :
  returncode env DIFF_INDEX <> 0 ->
  exit_status (fst (run env cargo_toml lines)) = 1 /\
  manifest (snd (run env cargo_toml lines)) = cargo_toml /\
  stdin (snd (run env cargo_toml lines)) = lines /\
  existsb asks_or_touches (trace (snd (run env cargo_toml lines))) = false /\
  (which env "git" = true -> which env "cargo" = true ->
   returncode env REV_PARSE = 0 -> strip (stdout_of env REV_PARSE) = "main"%string ->
   run env cargo_toml lines
   = (Exit 1, {| manifest := cargo_toml; stdin := lines;
                 trace := [Logo; Print Step "Starting release process for git-iris";
                           Run REV_PARSE; Run DIFF_INDEX; UNCOMMITTED] |})).
Proof.
  intros Hd. apply Z.eqb_neq in Hd.
  split; [|split; [|split; [|split]]].
  1-4: unfold_run; repeat step; close_leaf.
  intros Hg Hc Hr Hb. apply Z.eqb_eq in Hr. apply String.eqb_eq in Hb.
  unfold_run. repeat step; close_leaf.
Qed.

Lemma C4_uncommitted_changes_stop_witness :
  exit_status (fst (run dirty_env (Some two_tables) ["0.3.0"; "y"]%string)) = 1 /\
  manifest (snd (run dirty_env (Some two_tables) ["0.3.0"; "y"]%string)) = Some two_tables /\
  stdin (snd (run dirty_env (Some two_tables) ["0.3.0"; "y"]%string))
  = ["0.3.0"; "y"]%string /\
  existsb asks_or_touches (trace (snd (run dirty_env (Some two_tables) ["0.3.0"; "y"]%string)))
  = false.
Proof.
  destruct (C4_uncommitted_changes_stop dirty_env (Some two_tables) ["0.3.0"; "y"]%string)
    as (H1 & H2 & H3 & H4 & _).
  - vm_compute. discriminate.
  - exact (conj H1 (conj H2 (conj H3 H4))).
Defined.

(** What a successful release does after the version prompt. *)
Definition after_prompt (v updated : string) : list event :=
  [ReadManifest; WriteManifest updated;
   Print Success ("Updated version in Cargo.toml to " ++ v);
   Print Step "Running cargo check"; Run CARGO_CHECK;
   Print Step "Running cargo test"; Run CARGO_TEST;
   Print Success "All checks passed";
   Print Warning "The following files will be modified:"; Run GIT_STATUS;
   Ask confirm_prompt;
   Print Step "Committing and pushing changes";
   Run GIT_ADD; Run (GIT_COMMIT v); Run GIT_PUSH; Run (GIT_TAG v); Run GIT_PUSH_TAGS;
   Print Success ("Changes committed and pushed for version " ++ v);
   Print Success ("git-iris v" ++ v ++ " has been successfully released!")].

(** The run in which every step succeeds. *)
Lemma run_success env content cur v answer rest :
  preconditions_hold env = true ->
  find_version content = Some cur ->
  is_valid_version v = true ->
  later_steps_ok env v (answer :: rest) = true ->
  run env (Some content) (v :: answer :: rest)
  = (Ret tt, {| manifest := Some (rewrite_version v content); stdin := rest;
                trace := up_to_prompt cur ++ after_prompt v (rewrite_version v content) |}).
Proof.
  intros Hp Hf Hv Hl. unfold after_prompt. unfold_run.
  split_andb Hp. split_andb Hl. cbn in *. repeat step; close_leaf.
Qed.

(** C7.  The manifest holds the line version = "1.2.3", the operator
    types 1.3.0 and then confirms, and every check and command
    succeeds.  Then the run returns (exit status 0); Cargo.toml ends up
    with the line version = "1.3.0" in the place of the old one; the
    commit is made with the message ":rocket: Release version 1.3.0",
    which contains 1.3.0; and the one tag created is v1.3.0. *)
Theorem C7_release_scenario env pre post answer rest :
  preconditions_hold env = true ->
  line_start pre ->
  later_steps_ok env "1.3.0" (answer :: rest) = true ->
  exists cur updated,
    find_version (pre ++ ("version = " ++ quoted "1.2.3") ++ post) = Some cur /\
    updated = (rewrite_version "1.3.0" pre ++ ("version = " ++ quoted "1.3.0")
               ++ rewrite_rest "1.3.0" post)%string /\
    line_start (rewrite_version "1.3.0" pre) /\
    run env (Some (pre ++ ("version = " ++ quoted "1.2.3") ++ post))
        ("1.3.0" :: answer :: rest)
    = (Ret tt, {| manifest := Some updated; stdin := rest;
                  trace := up_to_prompt cur ++ after_prompt "1.3.0" updated |}) /\
    GIT_COMMIT "1.3.0" = ["git"; "commit"; "-m"; ":rocket: Release version 1.3.0"]%string /\
    GIT_TAG "1.3.0" = ["git"; "tag"; "v1.3.0"]%string /\
    (forall name,
        In (Run ["git"; "tag"; name]%string)
           (up_to_prompt cur ++ after_prompt "1.3.0" updated) ->
        name = "v1.3.0"%string) /\
    (exists a b, commit_message "1.3.0" = (a ++ "1.3.0" ++ b)%string).
Proof.
  intros Hp Hl Hs.
  assert (T : triple "1.2.3").
  { apply (triple_intro "1" "2" "3"); split; (discriminate || reflexivity). }
  assert (Hf : exists cur,
             find_version (pre ++ ("version = " ++ quoted "1.2.3") ++ post) = Some cur).
  { destruct (find_version (pre ++ ("version = " ++ quoted "1.2.3") ++ post)) eqn:E;
      [eauto|exfalso].
    apply (proj1 (find_version_none _) E (length pre) "1.2.3"%string).
    exists pre, ("version = " ++ quoted "1.2.3")%string, post. repeat split.
    apply (assignment_intro _ _ sample_head_ok T). }
  destruct Hf as (cur & Hf).
  assert (Hv : is_valid_version "1.3.0" = true) by (vm_compute; reflexivity).
  pose proof (run_success env _ cur "1.3.0"%string answer rest Hp Hf Hv Hs) as Hr.
  pose proof (rewrite_at_line "1.3.0" pre _ "1.2.3" post Hl sample_head_ok T) as Hw.
  unfold sample_head in Hw. rewrite Hw in Hr.
  eexists cur, _.
  split; [exact Hf|]. split; [reflexivity|].
  split; [now apply rewrite_line_start|]. split; [exact Hr|].
  split; [reflexivity|]. split; [reflexivity|]. split.
  - unfold up_to_prompt, after_prompt. intros name H.
    apply in_app_or in H. simpl in H.
    repeat match type of H with
           | _ \/ _ => destruct H as [H|H]
           | _ = _ => first [discriminate H | injection H as <-; reflexivity]
           | False => contradiction
           end.
  - exists ":rocket: Release version "%string, ""%string. reflexivity.
Qed.

Lemma C7_release_scenario_witness :
  exists cur updated,
    updated = (rewrite_version "1.3.0" sample_pre ++ ("version = " ++ quoted "1.3.0")
               ++ rewrite_rest "1.3.0" sample_post)%string /\
    run ok_env (Some (sample_pre ++ ("version = " ++ quoted "1.2.3") ++ sample_post))
        ["1.3.0"; "Y"]%string
    = (Ret tt, {| manifest := Some updated; stdin := [];
                  trace := up_to_prompt cur ++ after_prompt "1.3.0" updated |}).
Proof.
  destruct (C7_release_scenario ok_env sample_pre sample_post "Y" [])
    as (cur & updated & _ & H2 & _ & H4 & _).
  - vm_compute. reflexivity.
  - exact sample_pre_ok.
  - vm_compute. reflexivity.
  - exists cur, updated. exact (conj H2 H4).
Defined.



End ProcessClaims.

(** * Part III: further properties of the code *)

(** ** Versions *)

Module VersionExtras.
Import Str StrFacts ClassFacts ReFacts PatternFacts VersionFacts VersionClaims.

(** [is_valid_version] accepts exactly the strings made of three
    dot-separated runs of decimal digits, optionally followed by one
    newline. *)
Theorem valid_version_exact s :
  is_valid_version s = true <-> triple s \/ exists t, triple t /\ s = t ++ NL.
Proof. apply is_valid_version_iff. Qed.

(** What [get_current_version] extracts is always a triple, so it
    passes [is_valid_version]: the current version could be typed back
    as the new one. *)
Theorem found_version_is_valid text t :
  find_version text = Some t -> triple t /\ is_valid_version t = true.
Proof.
  intros H. destruct (find_version_some _ _ H) as (i & (pre & a & post & _ & _ & Ha) & _).
  destruct Ha as (h & _ & Ht & _).
  split; [exact Ht|]. apply is_valid_version_iff. now left.
Qed.

Lemma found_version_is_valid_witness :
  triple "0.2.0" /\ is_valid_version "0.2.0" = true.
Proof.
  apply (found_version_is_valid
           (sample_pre ++ (sample_head ++ quoted "0.2.0") ++ sample_post)).
  vm_compute. reflexivity.
Defined.

Definition log (s : Sys) (es : list event) : Sys :=
  {| manifest := manifest s; stdin := stdin s; trace := (trace s ++ es)%list |}.

Definition NO_VERSION : event := Print Error "Could not find version in Cargo.toml".

(** The three outcomes of [get_current_version]: FileNotFoundError
    when there is no Cargo.toml; the error message and exit status 1
    exactly when no version assignment occurs anywhere in the text;
    otherwise the triple of the first occurrence.  Cargo.toml and
    standard input are left as they were. *)
Theorem get_current_version_outcome s :
  match manifest s with
  | None => get_current_version s = (Raise FileNotFoundError, s)
  | Some text =>
      ((forall i t, ~ occurs text i t) /\
       get_current_version s = (Exit 1, log s [ReadManifest; NO_VERSION])) \/
      (exists i t,
          occurs text i t /\ (forall j t', occurs text j t' -> i <= j) /\
          get_current_version s = (Ret t, log s [ReadManifest]))
  end.
Proof.
  unfold get_current_version, read_manifest, bind, log, NO_VERSION.
  destruct (manifest s) as [text|] eqn:E; [|reflexivity].
  destruct (find_version text) as [t|] eqn:F.
  - right. destruct (find_version_some _ _ F) as (i & Ho & Hmin).
    exists i, t. repeat split; auto.
  - left. split; [exact (proj1 (find_version_none text) F)|].
    cbn. rewrite <- List.app_assoc. reflexivity.
Qed.

(** A line start is what [^] sees with MULTILINE. *)
Lemma at_bol_is_line_start pre : at_bol true (last_of None pre) = true -> line_start pre.
Proof.
  assert (G : forall s prev c, last_of prev (String c s) = Some newline ->
                               exists p, String c s = p ++ NL).
  { induction s as [|b s IH]; intros prev c H; simpl in H.
    - injection H as ->. now exists "".
    - destruct (IH (Some c) b H) as (p & Hp). exists (String c p).
      simpl. now rewrite <- Hp. }
  assert (N : forall s a, last_of (Some a) s = None -> False).
  { induction s as [|b s IH]; intros a E; simpl in E; [discriminate E|].
    exact (IH _ E). }
  destruct pre as [|c s]; [now left|]. intros H. right.
  destruct (last_of None (String c s)) as [a|] eqn:E; simpl in H.
  - apply Ascii.eqb_eq in H. subst a. exact (G _ _ _ E).
  - exfalso. exact (N _ _ E).
Qed.

(** A computable check that no line of a text begins with an
    assignment. *)
Lemma no_line_assignment text :
  re_search true UPDATE_RE text = None ->
  forall pre a post t,
    text = pre ++ a ++ post -> line_start pre -> assignment a t -> False.
Proof.
  unfold re_search. intros H pre a post t E Hl (h & Hh & Ht & ->).
  destruct (update_at_complete true (last_of None pre) h t post Hh Ht
              (at_bol_line_start _ Hl)) as (ps & Hm & _).
  rewrite (search_none _ _ _ _ _ H pre _ E) in Hm. discriminate.
Qed.

(** The new version holds no backslash: the replacement template is
    then taken literally by [re.sub]. *)
Definition backslash : ascii := "092"%char.

Definition no_backslash (v : string) : bool :=
  all (fun c => negb (Ascii.eqb c backslash)) v.

(** When no line of the text begins with a version assignment,
    [update_version] writes the text back unchanged, whatever
    [get_current_version] found elsewhere in it and whatever new
    version without a backslash it is given. *)
Theorem rewrite_without_line_assignment v text :
  no_backslash v = true ->
  (forall pre a post t,
      text = pre ++ a ++ post -> line_start pre -> assignment a t -> False) ->
  rewrite_version v text = text.
Proof.
  intros _ H. unfold rewrite_version, re_sub.
  rewrite <- (app_nil_r text) at 1. rewrite sub_copy.
  - rewrite sub_empty by apply UPDATE_empty. apply app_nil_r.
  - intros s1 c s2 E. rewrite app_nil_r.
    destruct (m true UPDATE_RE (last_of None s1) (String c s2)) as [[ps rest]|] eqn:Hm;
      [exfalso | reflexivity].
    apply update_at in Hm as (h & t & Hh & Ht & Es & _ & _ & Hb).
    apply (H s1 (h ++ quoted t) rest t).
    + now rewrite E, Es, app_assoc.
    + now apply at_bol_is_line_start.
    + now apply assignment_intro.
Qed.

Definition indented_manifest : string :=
  "[package]" ++ NL ++ "  version = " ++ quoted "0.2.0" ++ NL.

Lemma rewrite_without_line_assignment_witness :
  find_version indented_manifest = Some "0.2.0" /\
  rewrite_version "0.3.0" indented_manifest = indented_manifest.
Proof.
  split; [vm_compute; reflexivity|].
  apply rewrite_without_line_assignment; [reflexivity|].
  apply no_line_assignment. vm_compute. reflexivity.
Defined.

(** Text added at the end of the manifest does not change the
    version [get_current_version] finds. *)
Theorem find_version_append text extra t :
  find_version text = Some t -> find_version (text ++ extra) = Some t.
Proof.
  intros H. destruct (find_version_some _ _ H) as (i & Ho & Hmin).
  destruct Ho as (pre & a & post & -> & <- & Ha).
  apply find_version_first with (length pre).
  - exists pre, a, (post ++ extra). now rewrite !app_assoc.
  - intros j t' Ho'.
    destruct (Nat.le_gt_cases (length pre) j) as [|L]; [assumption|].
    destruct (assignment_shape _ _ Ha) as [(tail & Ea & _) _].
    rewrite !app_assoc, Ea in Ho'. simpl in Ho'.
    apply (Hmin j t').
    exact (occurs_prefix _ _ _ _ Ho' L (a ++ post)).
Qed.

Lemma find_version_append_witness :
  find_version ((sample_pre ++ (sample_head ++ quoted "0.2.0") ++ sample_post)
                ++ "[dependencies]" ++ NL ++ "serde = { version = " ++ quoted "1.0.0"
                ++ " }" ++ NL)
  = Some "0.2.0".
Proof. apply find_version_append. vm_compute. reflexivity. Defined.

Section Idempotence.

Variable v : string.
Hypothesis v_triple : triple v.

Let S (prev : option ascii) (s : string) : string :=
  sub_from true UPDATE_RE (template v) 0 prev s.

Lemma S_here prev h t post :
  at_bol true prev = true -> assign_head h -> triple t ->
  S prev ((h ++ quoted t) ++ post) = (h ++ quoted v) ++ S (Some dquote) post.
Proof. intros. unfold S. now rewrite rewrite_here. Qed.

Lemma S_miss prev a s :
  m true UPDATE_RE prev (String a s) = None ->
  S prev (String a s) = String a (S (Some a) s).
Proof. intros H. unfold S. cbn [sub_from]. now rewrite H. Qed.

(** The scan copies the text up to the first assignment it replaces. *)
Lemma S_shape : forall s prev,
  S prev s = s \/
  exists c h t r,
    s = c ++ (h ++ quoted t) ++ r /\ assign_head h /\ triple t /\
    S prev s = c ++ (h ++ quoted v) ++ S (Some dquote) r.
Proof.
  induction s as [|a s IH]; intros prev.
  - left. unfold S. apply sub_empty, UPDATE_empty.
  - destruct (m true UPDATE_RE prev (String a s)) as [[ps rest]|] eqn:Hm.
    + right. apply update_at in Hm as (h & t & Hh & Ht & Es & _ & _ & Hb).
      exists "", h, t, rest. rewrite Es. repeat split; auto.
      now apply S_here.
    + rewrite (S_miss _ _ _ Hm).
      destruct (IH (Some a)) as [->|(c & h & t & r & -> & Hh & Ht & ->)]; [now left|].
      right. exists (String a c), h, t, r. repeat split; auto.
Qed.

(** Rewriting the rest of a text creates no match at its start. *)
Lemma S_no_new_match prev a s :
  m true UPDATE_RE prev (String a s) = None ->
  m true UPDATE_RE prev (String a (S (Some a) s)) = None.
Proof.
  intros Hm.
  destruct (S_shape s (Some a)) as [->|(c & h & t & r & Es & Hh & Ht & ->)];
    [exact Hm|].
  destruct (m true UPDATE_RE prev (String a (c ++ (h ++ quoted v) ++ S (Some dquote) r)))
    as [[ps rest]|] eqn:Hn; [exfalso | reflexivity].
  apply update_at in Hn as (h' & t' & Hh' & Ht' & En & _ & _ & Hb).
  pose proof (assignment_intro _ _ Hh' Ht') as Ha'.
  assert (Hold : forall rest', String a s = (h' ++ quoted t') ++ rest' -> False).
  { intros rest' E.
    destruct (update_at_complete true prev h' t' rest' Hh' Ht' Hb) as (ps' & Hm' & _).
    rewrite <- E in Hm'. congruence. }
  change (String a (c ++ (h ++ quoted v) ++ S (Some dquote) r))
    with (String a c ++ (h ++ quoted v) ++ S (Some dquote) r) in En.
  destruct (app_eq_app _ _ _ _ En) as [(u & Hu & Hr)|(b & u & Hu & _)].
  - destruct u as [|x u].
    + rewrite app_nil_r in Hu. apply (Hold ((h ++ quoted t) ++ r)).
      now rewrite Hu, Es.
    + destruct (head_starts_v _ Hh) as (hr & Eh). rewrite Eh in Hr.
      simpl in Hr. injection Hr as <- _.
      exact (no_v_inside _ _ _ _ _ Ha' Hu).
  - apply (Hold (String b u ++ (h ++ quoted t) ++ r)).
    rewrite Es. change (String a (c ++ (h ++ quoted t) ++ r))
      with (String a c ++ (h ++ quoted t) ++ r).
    now rewrite Hu, !app_assoc.
Qed.

Lemma S_idempotent : forall n s, length s <= n -> forall prev,
  S prev (S prev s) = S prev s.
Proof.
  induction n as [|n IH]; intros s L prev.
  - destruct s; [|simpl in L; lia]. unfold S.
    rewrite sub_empty by apply UPDATE_empty. apply sub_empty, UPDATE_empty.
  - destruct s as [|a s].
    + unfold S. rewrite sub_empty by apply UPDATE_empty. apply sub_empty, UPDATE_empty.
    + destruct (m true UPDATE_RE prev (String a s)) as [[ps rest]|] eqn:Hm.
      * apply update_at in Hm as (h & t & Hh & Ht & Es & _ & _ & Hb).
        rewrite Es, !S_here by assumption. f_equal. apply IH.
        apply (f_equal length) in Es. rewrite length_app in Es.
        pose proof (assignment_nonempty _ _ (assignment_intro _ _ Hh Ht)) as Hne.
        destruct (h ++ quoted t); [congruence|]. simpl in *. lia.
      * rewrite (S_miss _ _ _ Hm), (S_miss _ _ _ (S_no_new_match _ _ _ Hm)).
        f_equal. apply IH. simpl in L. lia.
Qed.

End Idempotence.

(** [update_version] is idempotent on the text: for a new version made
    of three dot-separated digit runs, a second update with the same
    version changes nothing. *)
Theorem rewrite_version_idempotent v text :
  triple v -> rewrite_version v (rewrite_version v text) = rewrite_version v text.
Proof.
  intros Hv. exact (S_idempotent v Hv (length text) text (Nat.le_refl _) None).
Qed.

Lemma rewrite_version_idempotent_witness :
  rewrite_version "0.3.0" (rewrite_version "0.3.0" two_tables)
  = rewrite_version "0.3.0" two_tables.
Proof. exact (rewrite_version_idempotent "0.3.0" two_tables triple_030). Defined.

End VersionExtras.

(** ** Colours, gradients and centring *)

(** [code] is a colour escape. *)
Definition is_sgr (code : string) : Prop :=
  exists params, Str.all (between 48 63) params = true /\ code = sgr params.

Module BannerExtras.
Import Str StrFacts ClassFacts ReFacts PatternFacts AnsiFacts WidthClaims GradientClaims.

(** Erasing matches never lengthens a text. *)
Lemma sub_erase_length ml re : forall s skip prev,
  length (sub_from ml re (fun _ => "") skip prev s) <= length s.
Proof.
  induction s as [|a s IH]; intros [|n] prev; cbn [sub_from].
  - destruct (m ml re prev ""); simpl; lia.
  - simpl. lia.
  - destruct (m ml re prev (String a s)) as [r|]; simpl.
    + destruct (length (whole (fst r))); simpl.
      * specialize (IH 0 (Some a)). lia.
      * specialize (IH n (Some a)). lia.
    + specialize (IH 0 (Some a)). lia.
  - specialize (IH n (Some a)). simpl. lia.
Qed.

(** [strip_ansi] never lengthens a text, and it returns a text without
    the ESC character unchanged. *)
Theorem strip_ansi_shrinks text :
  length (strip_ansi text) <= length text /\
  (all (not_char esc) text = true -> strip_ansi text = text).
Proof.
  split; [apply sub_erase_length|].
  intros H. unfold strip_ansi, re_sub. rewrite <- (app_nil_r text) at 1.
  rewrite ansi_sub_plain by exact H. simpl. apply app_nil_r.
Qed.

Lemma strip_ansi_sgr_front params s :
  all (between 48 63) params = true -> strip_ansi (sgr params ++ s) = strip_ansi s.
Proof.
  intros H. exact (strip_ansi_sgr "" params s H).
Qed.

Lemma digits_of_uint d : all is_digit (NilEmpty.string_of_uint d) = true.
Proof. induction d; simpl; auto. Qed.

(** [str(n)] is a run of digits for a natural [n]. *)
Lemma of_Z_digits n : (0 <= n)%Z -> all is_digit (of_Z n) = true.
Proof.
  intros H. unfold of_Z, NilZero.string_of_int, NilZero.string_of_uint.
  destruct n as [|p|p]; [reflexivity | | lia].
  simpl. destruct (Pos.to_uint p); try reflexivity; apply digits_of_uint.
Qed.

Lemma color_code_is_sgr r g b :
  (0 <= r)%Z -> (0 <= g)%Z -> (0 <= b)%Z -> is_sgr (color_code r g b).
Proof.
  intros Hr Hg Hb.
  exists ("38;2;" ++ of_Z r ++ ";" ++ of_Z g ++ ";" ++ of_Z b). split.
  - assert (D : forall w, all is_digit w = true -> all (between 48 63) w = true).
    { intros w. apply all_impl. intros a Ha. apply digit_cases in Ha.
      apply between_iff. lia. }
    cbn [append all]. rewrite !all_app. cbn [append all].
    rewrite !all_app. cbn [append all].
    pose proof (D _ (of_Z_digits _ Hr)) as Dr.
    pose proof (D _ (of_Z_digits _ Hg)) as Dg.
    pose proof (D _ (of_Z_digits _ Hb)) as Db.
    rewrite Dr, Dg, Db. reflexivity.
  - unfold color_code, sgr. simpl.
    repeat (progress (rewrite ?app_assoc; simpl)). reflexivity.
Qed.

(** The colour code of [generate_gradient] for channels that are not
    negative is an escape that [strip_ansi] removes wherever it stands
    in a text. *)
Theorem strip_ansi_color_code r g b before after :
  (0 <= r)%Z -> (0 <= g)%Z -> (0 <= b)%Z ->
  strip_ansi (before ++ color_code r g b ++ after)
  = strip_ansi before ++ strip_ansi after.
Proof.
  intros Hr Hg Hb.
  destruct (color_code_is_sgr r g b Hr Hg Hb) as (params & Hp & ->).
  now apply strip_ansi_sgr.
Qed.

Lemma strip_ansi_color_code_witness :
  strip_ansi ("ab" ++ color_code 138 43 226 ++ "cd") = strip_ansi "ab" ++ strip_ansi "cd".
Proof. apply strip_ansi_color_code; lia. Defined.

(** What [print_colored] prints shows as the message alone: stripping
    the coloured text gives the stripped message, for every colour
    escape and every message. *)
Theorem strip_ansi_colored message color :
  is_sgr color -> strip_ansi (colored message color) = strip_ansi message.
Proof.
  intros (params & Hp & ->). unfold colored.
  rewrite strip_ansi_sgr_front by exact Hp.
  change COLOR_RESET with (sgr "0" ++ "").
  rewrite strip_ansi_sgr by reflexivity. apply app_nil_r.
Qed.

Lemma COLOR_STAR_sgr : is_sgr COLOR_STAR.
Proof. exists "38;2;255;215;0". split; reflexivity. Qed.

Lemma strip_ansi_colored_witness :
  strip_ansi (colored "All checks passed" COLOR_STAR) = strip_ansi "All checks passed".
Proof. exact (strip_ansi_colored _ _ COLOR_STAR_sgr). Defined.

(** *** [apply_gradient] *)

Lemma gradient_length_pos (gradient : list string) :
  gradient <> [] -> (0 < Z.of_nat (List.length gradient))%Z.
Proof. destruct gradient; [congruence | simpl; lia]. Qed.

Lemma code_at_In gradient k :
  gradient <> [] ->
  In (code_at gradient (k mod Z.of_nat (List.length gradient))) gradient.
Proof.
  intros H. apply gradient_length_pos in H. unfold code_at. apply nth_In.
  pose proof (Z.mod_pos_bound k _ H). lia.
Qed.

(** A character followed by nothing or by ESC starts no escape. *)
Lemma ANSI_miss prev c tail :
  tail = "" \/ (exists r, tail = String esc r) ->
  m false ANSI_RE prev (String c tail) = None.
Proof.
  intros [->|(r & ->)]; simpl; destruct (Ascii.eqb c esc); reflexivity.
Qed.

Lemma strip_ansi_char c tail :
  tail = "" \/ (exists r, tail = String esc r) ->
  strip_ansi (String c tail) = String c (strip_ansi tail).
Proof.
  intros H. unfold strip_ansi, re_sub. cbn [sub_from].
  rewrite (ANSI_miss None c tail H). f_equal. apply ansi_sub_prev.
Qed.

Lemma apply_gradient_from_strip gradient n :
  gradient <> [] -> Forall is_sgr gradient ->
  forall text i, exists out,
    apply_gradient_from gradient n i text = inr out /\
    strip_ansi out = text /\
    (out = "" \/ exists r, out = String esc r).
Proof.
  intros Hne Hs. pose proof (gradient_length_pos _ Hne) as Hl.
  induction text as [|c text IH]; intros i.
  - exists "". repeat split. now left.
  - destruct (IH (i + 1)%Z) as (tail & Ht & Hstrip & Hhead).
    cbn [apply_gradient_from].
    destruct (Z.eqb_spec (Z.of_nat (List.length gradient)) 0) as [E|_]; [lia|].
    rewrite Ht. cbn [try_bind].
    pose proof (code_at_In gradient (i + n) Hne) as Hin.
    rewrite Forall_forall in Hs. destruct (Hs _ Hin) as (params & Hp & ->).
    eexists. split; [reflexivity|]. split.
    + rewrite strip_ansi_sgr_front by exact Hp.
      rewrite strip_ansi_char by exact Hhead. now rewrite Hstrip.
    + right. unfold sgr. simpl. eauto.
Qed.

(** Colouring is invisible: for a gradient of colour escapes that is
    not empty, [apply_gradient] returns, and stripping its result
    gives back the text, whatever the text holds. *)
Theorem apply_gradient_strip text gradient line_number :
  gradient <> [] -> Forall is_sgr gradient ->
  exists out, apply_gradient text gradient line_number = inr out /\
              strip_ansi out = text.
Proof.
  intros Hne Hs.
  destruct (apply_gradient_from_strip gradient line_number Hne Hs text 0)
    as (out & H1 & H2 & _).
  now exists out.
Qed.

Lemma apply_gradient_strip_witness :
  exists out, apply_gradient "git-iris" [COLOR_STAR; COLOR_BORDER] 3 = inr out /\
              strip_ansi out = "git-iris".
Proof.
  apply apply_gradient_strip; [discriminate|].
  repeat constructor.
  - exact COLOR_STAR_sgr.
  - exists "38;2;138;43;226". split; reflexivity.
Defined.

(** [apply_gradient] raises, and then ZeroDivisionError, exactly when
    the gradient is empty and the text is not. *)
Theorem apply_gradient_raises text gradient line_number :
  (forall e, apply_gradient text gradient line_number = inl e -> e = ZeroDivisionError) /\
  ((exists e, apply_gradient text gradient line_number = inl e)
   <-> gradient = [] /\ text <> "").
Proof.
  unfold apply_gradient.
  assert (T : gradient <> [] -> forall t i, exists out,
                apply_gradient_from gradient line_number i t = inr out).
  { intros Hne. pose proof (gradient_length_pos _ Hne) as Hl.
    induction t as [|c t IH]; intros i; [now exists ""|].
    cbn [apply_gradient_from].
    destruct (Z.eqb_spec (Z.of_nat (List.length gradient)) 0) as [E|_]; [lia|].
    destruct (IH (i + 1)%Z) as (tail & ->). cbn [try_bind]. eauto. }
  destruct gradient as [|g gradient].
  - destruct text as [|c text]; simpl.
    + split; [discriminate|]. split; [intros (e & H); discriminate | intros [_ H]; congruence].
    + split; [now intros e [= <-]|]. split; [intros _; split; [reflexivity | discriminate]|].
      intros _. now exists ZeroDivisionError.
  - destruct (T ltac:(discriminate) text 0%Z) as (out & ->).
    split; [discriminate|]. split; [intros (e & H); discriminate | intros [H _]; discriminate].
Qed.

Lemma apply_gradient_from_shift gradient n : forall text i,
  apply_gradient_from gradient n (i + 1) text
  = apply_gradient_from gradient (n + 1) i text.
Proof.
  induction text as [|c text IH]; intros i; [reflexivity|].
  cbn [apply_gradient_from]. rewrite IH.
  now replace (i + 1 + n)%Z with (i + (n + 1))%Z by lia.
Qed.

(** The colouring is diagonal and periodic.  On line [n] the first
    character gets the code at index [n % len(gradient)] and the rest
    of the line is coloured as it would be as line [n + 1]; and line
    [n + len(gradient)] is coloured as line [n]. *)
Theorem apply_gradient_diagonal gradient n c text :
  gradient <> [] ->
  apply_gradient (String c text) gradient n
  = (let? tail := apply_gradient text gradient (n + 1) in
     inr (code_at gradient (n mod Z.of_nat (List.length gradient)) ++ String c tail)) /\
  apply_gradient (String c text) gradient (n + Z.of_nat (List.length gradient))
  = apply_gradient (String c text) gradient n.
Proof.
  intros Hne. pose proof (gradient_length_pos _ Hne) as Hl. split.
  - unfold apply_gradient. cbn [apply_gradient_from].
    destruct (Z.eqb_spec (Z.of_nat (List.length gradient)) 0) as [E|_]; [lia|].
    change (0 + 1)%Z with (0 + 1)%Z. now rewrite apply_gradient_from_shift.
  - unfold apply_gradient. generalize 0%Z. generalize (String c text). clear c text.
    induction s as [|c text IH]; intros j; [reflexivity|].
    cbn [apply_gradient_from]. rewrite IH.
    destruct (Z.eqb_spec (Z.of_nat (List.length gradient)) 0) as [E|E]; [reflexivity|].
    replace (j + (n + Z.of_nat (List.length gradient)))%Z
      with (j + n + 1 * Z.of_nat (List.length gradient))%Z by lia.
    now rewrite Z.mod_add by exact E.
Qed.

Lemma apply_gradient_diagonal_witness :
  apply_gradient "ab" ["X"; "Y"; "Z"] 2
  = (let? tail := apply_gradient "b" ["X"; "Y"; "Z"] (2 + 1) in
     inr (code_at ["X"; "Y"; "Z"] (2 mod 3) ++ String "a" tail)) /\
  apply_gradient "ab" ["X"; "Y"; "Z"] (2 + 3) = apply_gradient "ab" ["X"; "Y"; "Z"] 2.
Proof. apply (apply_gradient_diagonal ["X"; "Y"; "Z"] 2 "a" "b"). discriminate. Defined.

(** *** [center_text] and [center_block] *)

Section Centring.

Variable wcwidth : ascii -> Z.
Hypothesis wcwidth_space : wcwidth " " = 1%Z.

(** A target width that does not exceed the width of the text leaves
    the text as it is: nothing is cut and no space is added. *)
Lemma center_text_narrow_aux text T :
  (T <= wcswidth wcwidth (strip_ansi text))%Z -> center_text wcwidth text T = text.
Proof.
  intros H. unfold center_text, spaces.
  set (W := wcswidth wcwidth (strip_ansi text)) in *.
  assert (H1 : ((T - W) / 2 <= 0)%Z) by (apply Z.div_le_upper_bound; lia).
  assert (H2 : (T - W <= (T - W) / 2)%Z).
  { apply Z.div_le_lower_bound; lia. }
  replace (Z.to_nat ((T - W) / 2)) with 0%nat by lia.
  replace (Z.to_nat (T - (T - W) / 2 - W)) with 0%nat by lia.
  simpl. apply app_nil_r.
Qed.

(** The width of a centred line. *)
Lemma center_text_width_aux text T :
  (0 <= wcswidth wcwidth (strip_ansi text) <= T)%Z ->
  wcswidth wcwidth (strip_ansi (center_text wcwidth text T)) = T.
Proof.
  intros H. unfold center_text, spaces.
  set (W := wcswidth wcwidth (strip_ansi text)) in *.
  assert (H1 : (0 <= (T - W) / 2)%Z) by (apply Z.div_pos; lia).
  assert (H2 : ((T - W) / 2 <= T - W)%Z) by (apply Z.div_le_upper_bound; lia).
  rewrite strip_ansi_pad, (wcswidth_pad _ wcwidth_space) by (fold W; lia).
  fold W. rewrite !Z2Nat.id by lia. lia.
Qed.

End Centring.

(** A target width that does not exceed the display width of the text
    leaves the text as it is: nothing is cut and no space is added. *)
Theorem center_text_narrow wcwidth text T :
  (T <= wcswidth wcwidth (strip_ansi text))%Z -> center_text wcwidth text T = text.
Proof. apply center_text_narrow_aux. Qed.

Lemma center_text_narrow_witness : center_text latin1_wcwidth "Release" 7 = "Release".
Proof. apply center_text_narrow. vm_compute. discriminate. Defined.

(** Centring is balanced: when the text fits ([0 <= W <= T]) the
    number of spaces behind the text is the number in front, or one
    more. *)
Theorem center_text_balanced wcwidth text T :
  (0 <= wcswidth wcwidth (strip_ansi text) <= T)%Z ->
  exists front behind,
    center_text wcwidth text T = repeat " " front ++ text ++ repeat " " behind /\
    (behind = front \/ behind = S front).
Proof.
  intros H. unfold center_text, spaces.
  set (W := wcswidth wcwidth (strip_ansi text)) in *.
  exists (Z.to_nat ((T - W) / 2)), (Z.to_nat (T - (T - W) / 2 - W)).
  split; [reflexivity|].
  assert (H1 : (0 <= (T - W) / 2)%Z) by (apply Z.div_pos; lia).
  pose proof (Z.div_mod (T - W) 2 ltac:(lia)) as Hd.
  pose proof (Z.mod_pos_bound (T - W) 2 ltac:(lia)) as Hm.
  lia.
Qed.

Lemma center_text_balanced_witness :
  exists front behind,
    center_text latin1_wcwidth "Release" 80
    = repeat " " front ++ "Release" ++ repeat " " behind /\
    (behind = front \/ behind = S front).
Proof. apply center_text_balanced. vm_compute. split; discriminate. Defined.

(** [center_block] keeps the number of lines and, when every line
    fits, gives every line the same display width, the target. *)
Theorem center_block_uniform wcwidth block T :
  wcwidth " "%char = 1%Z ->
  (forall line, In line block -> (0 <= wcswidth wcwidth (strip_ansi line) <= T)%Z) ->
  List.length (center_block wcwidth block T) = List.length block /\
  forall line, In line (center_block wcwidth block T) ->
               wcswidth wcwidth (strip_ansi line) = T.
Proof.
  intros Hsp H. unfold center_block. split; [apply length_map|].
  intros line Hin. apply in_map_iff in Hin as (l & <- & Hl).
  apply center_text_width_aux; auto.
Qed.

Lemma center_block_uniform_witness :
  List.length (center_block latin1_wcwidth ["git"; COLOR_STAR ++ "iris"; ""] 10) = 3 /\
  Forall (fun line => wcswidth latin1_wcwidth (strip_ansi line) = 10%Z)
         (center_block latin1_wcwidth ["git"; COLOR_STAR ++ "iris"; ""] 10).
Proof.
  rewrite Forall_forall.
  apply (center_block_uniform latin1_wcwidth ["git"; COLOR_STAR ++ "iris"; ""] 10).
  - reflexivity.
  - intros line [<-|[<-|[<-|[]]]]; vm_compute; split; discriminate.
Defined.

(** *** [generate_gradient] on short colour lists *)

(** An exception of a comprehension is the exception of one of its
    elements. *)
Lemma try_map_raises {A B} (f : A -> exn + B) xs e :
  try_map f xs = inl e -> exists x, In x xs /\ f x = inl e.
Proof.
  induction xs as [|x xs IH]; simpl; [discriminate|].
  destruct (f x) as [e'|y] eqn:E; simpl.
  - intros [= <-]. eauto.
  - destruct (try_map f xs) as [e'|ys]; simpl; [|discriminate].
    intros [= <-]. destruct (IH eq_refl) as (x0 & ? & ?). eauto.
Qed.

Lemma of_int_exn n e : Float.of_int n = inl e -> e = OverflowError.
Proof. unfold Float.of_int. destruct (Float.is_finite _); congruence. Qed.

Lemma div_int_exn a b e : Float.div_int a b = inl e -> e = OverflowError.
Proof. unfold Float.div_int. destruct (Float.is_finite _); congruence. Qed.

Lemma to_int_exn x e : Float.to_int x = inl e -> e <> ZeroDivisionError.
Proof. destruct x; simpl; intros [= <-]; discriminate. Qed.

Lemma blend_exn a b t e : blend a b t = inl e -> e <> ZeroDivisionError.
Proof.
  unfold blend.
  destruct (Float.of_int 1) as [e1|one] eqn:E1; simpl.
  { intros [= <-]. now rewrite (of_int_exn _ _ E1). }
  destruct (Float.of_int a) as [e2|s] eqn:E2; simpl.
  { intros [= <-]. now rewrite (of_int_exn _ _ E2). }
  destruct (Float.of_int b) as [e3|x] eqn:E3; simpl.
  { intros [= <-]. now rewrite (of_int_exn _ _ E3). }
  apply to_int_exn.
Qed.

Lemma gradient_step_exn c1 c2 sps j e :
  sps <> 0%Z -> gradient_step c1 c2 sps j = inl e -> e <> ZeroDivisionError.
Proof.
  intros Hs. destruct c1 as [[r0 g0] b0], c2 as [[r1 g1] b1].
  unfold gradient_step, true_div.
  destruct (Z.eqb_spec sps 0) as [|_]; [contradiction|].
  destruct (Float.div_int j sps) as [e1|t] eqn:E1; simpl.
  { intros [= <-]. now rewrite (div_int_exn _ _ _ E1). }
  destruct (blend r0 r1 _) as [e3|r] eqn:E3; simpl.
  { intros [= <-]. exact (blend_exn _ _ _ _ E3). }
  destruct (blend g0 g1 _) as [e4|g] eqn:E4; simpl.
  { intros [= <-]. exact (blend_exn _ _ _ _ E4). }
  destruct (blend b0 b1 _) as [e5|b] eqn:E5; simpl.
  { intros [= <-]. exact (blend_exn _ _ _ _ E5). }
  discriminate.
Qed.

(** [generate_gradient] divides by the number of segments, one less
    than the number of colours: it raises ZeroDivisionError exactly
    when it is given a single colour, whatever the channel values and
    the number of steps (the inner division, by the steps per segment,
    never does: that number is at least 1).  With no colour at all it
    returns no code. *)
Theorem generate_gradient_zero_division colors steps :
  (generate_gradient colors steps = inl ZeroDivisionError <-> List.length colors = 1) /\
  generate_gradient [] steps = inr [].
Proof.
  split; [|reflexivity]. split.
  - unfold generate_gradient.
    destruct (Z.eqb_spec (Z.of_nat (List.length colors) - 1) 0) as [E|_]; [lia|].
    set (sps := Z.max 1 _).
    destruct (try_map _ (range _)) as [e|blocks] eqn:E; simpl; [|discriminate].
    intros [= ->]. exfalso.
    apply try_map_raises in E as (i & _ & E).
    apply try_map_raises in E as (j & _ & E).
    apply gradient_step_exn in E; [congruence|]. unfold sps. lia.
  - destruct colors as [|c [|? ?]]; simpl; try discriminate. reflexivity.
Qed.

End BannerExtras.

(** ** The branch name and the confirmation *)

Module TextExtras.
Import Str StrFacts ClassFacts.

Lemma take_drop p s : take_while p s ++ drop_while p s = s.
Proof.
  induction s as [|a s IH]; simpl; [reflexivity|].
  destruct (p a); simpl; [now rewrite IH | reflexivity].
Qed.

Lemma all_take_while p s : all p (take_while p s) = true.
Proof.
  induction s as [|a s IH]; simpl; [reflexivity|].
  destruct (p a) eqn:E; simpl; [now rewrite E | reflexivity].
Qed.

Lemma drop_while_app p w r :
  all p w = true -> heads p r = false -> drop_while p (w ++ r) = r.
Proof.
  intros Hw Hr. induction w as [|a w IH]; simpl in *.
  - destruct r as [|b r]; simpl in *; [reflexivity | now rewrite Hr].
  - apply andb_true_iff in Hw as [Ha Hw]. now rewrite Ha, IH.
Qed.

Lemma rstrip_app_blank w : blank w -> forall s, rstrip (s ++ w) = rstrip s.
Proof.
  intros Hw. assert (E : rstrip w = "").
  { unfold blank in Hw. induction w as [|a w IH]; [reflexivity|].
    simpl in *. apply andb_true_iff in Hw as [Ha Hw]. now rewrite (IH Hw), Ha. }
  induction s as [|a s IH]; simpl; [exact E | now rewrite IH].
Qed.

Lemma rstrip_decomp : forall s, exists w, blank w /\ s = rstrip s ++ w.
Proof.
  induction s as [|a s (w & Hw & E)]; [now exists ""|].
  simpl. destruct (rstrip s) as [|b r] eqn:R.
  - simpl in E. subst w. destruct (is_space a) eqn:Sa.
    + exists (String a s). split; [|reflexivity]. unfold blank in *. simpl.
      now rewrite Sa.
    + exists s. now split.
  - exists w. split; [exact Hw|].
    change (String a (String b r) ++ w) with (String a (String b r ++ w)).
    now rewrite <- E.
Qed.

(** [check_branch] accepts exactly the outputs of git that read main
    between two possibly empty runs of whitespace: the newline git
    prints after the name does not matter, a longer name does. *)
Theorem main_branch_outputs out :
  strip out = "main" <->
  exists w1 w2, blank w1 /\ blank w2 /\ out = w1 ++ "main" ++ w2.
Proof.
  unfold strip. split.
  - intros H. destruct (rstrip_decomp (drop_while is_space out)) as (w2 & H2 & E).
    exists (take_while is_space out), w2. rewrite H in E.
    split; [apply all_take_while|]. split; [exact H2|].
    now rewrite <- E, take_drop.
  - intros (w1 & w2 & H1 & H2 & ->).
    rewrite drop_while_app by (exact H1 || reflexivity).
    now rewrite rstrip_app_blank.
Qed.

Lemma lower_char_y a : lower_char a = "y"%char <-> a = "y"%char \/ a = "Y"%char.
Proof.
  split.
  - destruct a as [[] [] [] [] [] [] [] []]; vm_compute; intros H;
      first [discriminate H | now left | now right].
  - intros [->| ->]; reflexivity.
Qed.

(** The operator confirms with y or Y and with nothing else: every
    other answer, the empty one and yes included, cancels the
    release. *)
Theorem confirmation_answers answer :
  String.eqb (lower answer) "y" = true <-> answer = "y" \/ answer = "Y".
Proof.
  rewrite String.eqb_eq. split.
  - destruct answer as [|a [|b s]]; simpl; try discriminate.
    intros H. injection H as H. apply lower_char_y in H as [->| ->]; auto.
  - intros [->| ->]; reflexivity.
Qed.

End TextExtras.

(** ** The order of the side effects of a run *)

(** A git command that changes the repository or the remote: add,
    commit, push or tag. *)
Definition git_write (e : event) : bool :=
  match e with
  | Run (_ :: sub :: _) =>
      String.eqb sub "add" || String.eqb sub "commit" || String.eqb sub "push"
      || String.eqb sub "tag"
  | _ => false
  end.

(** A push or a tag. *)
Definition push_or_tag (e : event) : bool :=
  match e with
  | Run (_ :: sub :: _) => String.eqb sub "push" || String.eqb sub "tag"
  | _ => false
  end.

Definition is_run (e : event) : bool :=
  match e with
  | Run _ => true
  | _ => false
  end.

(** Everything before [commit_and_push] succeeds and the operator
    confirms. *)
Definition confirmed_release (env : Env) (cargo_toml : option string) (lines : list string)
  : bool :=
  preconditions_hold env &&
  match cargo_toml with
  | Some content =>
      match find_version content with
      | Some _ =>
          match lines with
          | v :: answer :: _ =>
              is_valid_version v &&
              (returncode env CARGO_CHECK =? 0)%Z && (returncode env CARGO_TEST =? 0)%Z &&
              String.eqb (lower answer) "y"
          | _ => false
          end
      | None => false
      end
  | None => false
  end.

(** What the run writes to Cargo.toml. *)
Definition expected_writes (env : Env) (cargo_toml : option string) (lines : list string)
  : list string :=
  if preconditions_hold env then
    match cargo_toml with
    | Some content =>
        match find_version content with
        | Some _ =>
            match lines with
            | v :: _ => if is_valid_version v then [rewrite_version v content] else []
            | [] => []
            end
        | None => []
        end
    | None => []
    end
  else [].

Definition is_error (e : event) : bool :=
  match e with
  | Print Error _ => true
  | _ => false
  end.

Definition is_success (e : event) : bool :=
  match e with
  | Print Success _ => true
  | _ => false
  end.

(** How a run ends, against its last event: an exit of the script has
    status 1 and comes right after an error message, a return comes
    right after a success message, and an uncaught exception comes
    without an error message. *)
Definition reported (r : outcome unit * Sys) : bool :=
  match fst r with
  | Exit status => (status =? 1)%Z && is_error (last (trace (snd r)) Logo)
  | Ret _ => is_success (last (trace (snd r)) Logo)
  | Raise _ => negb (is_error (last (trace (snd r)) Logo))
  end.

(** The only tag a run may create for the typed version [v]: the
    letter v followed by [v], and [v] has passed validation. *)
Definition tag_ok (v : string) (e : event) : bool :=
  match e with
  | Run [_; sub; name] =>
      if String.eqb sub "tag" then String.eqb name ("v" ++ v) && is_valid_version v
      else true
  | _ => true
  end.

Module ProcessExtras.
Import Str StrFacts VersionClaims ProcessClaims.
Local Open Scope Z_scope.

Local Opaque find_version is_valid_version rewrite_version strip lower.

Ltac unfold_extras :=
  unfold confirmed_release, expected_writes in *; unfold_run.

Ltac stuck_all t :=
  lazymatch t with
  | forallb _ ?x => stuck x
  | _ => stuck t
  end.

Ltac step_all :=
  cbn;
  lazymatch goal with
  | |- ?l = _ =>
      let c := stuck_all l in
      tryif constr_eq c l then fail else destruct c eqn:?
  end.

(** A git add, commit, push or tag is run exactly when every earlier
    step succeeded and the operator confirmed: no failed check, no
    failed test and no refusal is ever followed by a commit. *)
Theorem git_writes_only_when_confirmed env cargo_toml lines :
  existsb git_write (trace (snd (run env cargo_toml lines)))
  = confirmed_release env cargo_toml lines.
Proof.
  unfold_extras. repeat step; cbn; try reflexivity.
  all: try match goal with l : list string |- _ => destruct l; reflexivity end.
Qed.

(** Cargo.toml is written at most once in a run, and only after the
    new version has passed [is_valid_version]; the file ends up with
    the text written, or as it was when nothing is written. *)
Theorem manifest_written_once env cargo_toml lines :
  writes (trace (snd (run env cargo_toml lines))) = expected_writes env cargo_toml lines /\
  manifest (snd (run env cargo_toml lines))
  = match expected_writes env cargo_toml lines with
    | [] => cargo_toml
    | text :: _ => Some text
    end.
Proof.
  split; unfold_extras; repeat step; cbn; reflexivity.
Qed.

(** Without git or cargo on the PATH the run stops with exit status 1
    before any command is executed. *)
Theorem missing_tool_runs_nothing env cargo_toml lines :
  which env "git" && which env "cargo" = false ->
  exit_status (fst (run env cargo_toml lines)) = 1 /\
  existsb is_run (trace (snd (run env cargo_toml lines))) = false /\
  stdin (snd (run env cargo_toml lines)) = lines.
Proof.
  intros H. repeat split; unfold_extras; repeat step; close_leaf.
Qed.

Definition no_cargo_env : Env :=
  {| which := fun tool => String.eqb tool "git";
     returncode := fun _ => 0;
     stdout_of := fun _ => "main" ++ NL |}.

Lemma missing_tool_runs_nothing_witness :
  exit_status (fst (run no_cargo_env (Some two_tables) ["0.3.0"; "y"]%string)) = 1 /\
  existsb is_run (trace (snd (run no_cargo_env (Some two_tables) ["0.3.0"; "y"]%string)))
  = false.
Proof.
  destruct (missing_tool_runs_nothing no_cargo_env (Some two_tables) ["0.3.0"; "y"]%string)
    as (H1 & H2 & _); [vm_compute; reflexivity | exact (conj H1 H2)].
Defined.

Definition WRONG_BRANCH : event := Print Error "You must be on the main branch to release.".

(** The two ways the branch check fails, with the tools installed.
    When git rev-parse itself fails, CalledProcessError escapes: the
    run ends without any message of the script.  When it names another
    branch the script reports it and exits with status 1.  In both
    cases nothing else is run. *)
Theorem branch_check_failures env cargo_toml lines :
  which env "git" = true -> which env "cargo" = true ->
  (returncode env REV_PARSE <> 0 ->
   run env cargo_toml lines
   = (Raise (CalledProcessError REV_PARSE (returncode env REV_PARSE)),
      {| manifest := cargo_toml; stdin := lines;
         trace := [Logo; Print Step "Starting release process for git-iris";
                   Run REV_PARSE] |})) /\
  (returncode env REV_PARSE = 0 -> strip (stdout_of env REV_PARSE) <> "main"%string ->
   run env cargo_toml lines
   = (Exit 1,
      {| manifest := cargo_toml; stdin := lines;
         trace := [Logo; Print Step "Starting release process for git-iris";
                   Run REV_PARSE; WRONG_BRANCH] |})).
Proof.
  intros Hg Hc. split.
  - intros Hr. apply Z.eqb_neq in Hr. unfold WRONG_BRANCH. unfold_run.
    repeat step; close_leaf.
  - intros Hr Hb. apply Z.eqb_eq in Hr. apply String.eqb_neq in Hb.
    unfold WRONG_BRANCH. unfold_run. repeat step; close_leaf.
Qed.

Definition develop_env : Env :=
  {| which := fun _ => true;
     returncode := fun _ => 0;
     stdout_of := fun _ => "develop" ++ NL |}.

Lemma branch_check_failures_witness :
  run develop_env (Some two_tables) ["0.3.0"; "y"]%string
  = (Exit 1,
     {| manifest := Some two_tables; stdin := ["0.3.0"; "y"]%string;
        trace := [Logo; Print Step "Starting release process for git-iris";
                  Run REV_PARSE; WRONG_BRANCH] |}).
Proof.
  apply (branch_check_failures develop_env (Some two_tables) ["0.3.0"; "y"]%string).
  - reflexivity.
  - reflexivity.
  - reflexivity.
  - vm_compute. discriminate.
Defined.

(** When git add or git commit fails, nothing is pushed and no tag is
    created. *)
Theorem failed_commit_no_push env cargo_toml v rest :
  (returncode env GIT_ADD =? 0) && (returncode env (GIT_COMMIT v) =? 0) = false ->
  existsb push_or_tag (trace (snd (run env cargo_toml (v :: rest)))) = false.
Proof.
  intros H. unfold_extras. cbn in H. repeat step; close_leaf.
Qed.

Definition failing_commit_env : Env :=
  {| which := fun _ => true;
     returncode := fun argv =>
       if list_eq_dec string_dec argv (GIT_COMMIT "0.3.0") then 1 else 0;
     stdout_of := fun _ => "main" ++ NL |}.

Lemma failed_commit_no_push_witness :
  existsb git_write
    (trace (snd (run failing_commit_env (Some two_tables) ["0.3.0"; "y"]%string))) = true /\
  existsb push_or_tag
    (trace (snd (run failing_commit_env (Some two_tables) ["0.3.0"; "y"]%string))) = false.
Proof.
  split; [vm_compute; reflexivity|].
  apply failed_commit_no_push. vm_compute. reflexivity.
Defined.

(** Every way a run ends is reported consistently: [sys.exit] is
    always called with status 1 and right after an error message; a
    run that returns ends with a success message; an exception that
    escapes (a failing git rev-parse, cargo check or cargo test, a
    missing Cargo.toml, no input) comes without an error message of
    the script. *)
Theorem exit_is_reported env cargo_toml lines :
  reported (run env cargo_toml lines) = true.
Proof.
  unfold reported. unfold_extras. repeat step; cbn; reflexivity.
Qed.

(** A tag is only ever created for the version the operator typed,
    and only when that version has passed [is_valid_version]: its name
    is the letter v followed by the version. *)
Theorem tag_is_validated_version env cargo_toml v rest :
  forallb (tag_ok v) (trace (snd (run env cargo_toml (v :: rest)))) = true.
Proof.
  unfold tag_ok. unfold_extras.
  repeat step_all; cbn; rewrite ?String.eqb_refl in *;
    first [reflexivity | discriminate].
Qed.

End ProcessExtras.
